(** * Workflow synthesis core: schemas, graph validation, Mermaid rendering

    A shallow embedding of
      cesar_src/models/schemas.py      (TaskObject, JobWorkflowSchema)
      cesar_src/services/mermaid.py    (Mermaid)
      cesar_src/agents/extractor_agent.py (ExtractorAgent._fallback)
      cesar_src/agents/orchestrator.py (Orchestrator.process_transcript)
    and the properties of the design document that concern them. *)

From Stdlib Require Import String Ascii.
From Stdlib Require Import NArith ZArith Bool Arith Lia DecimalNat Wf_nat.
From Stdlib Require Import List.
Import ListNotations.

Local Open Scope list_scope.

(** ** Python strings

    A Python [str] is a sequence of Unicode code points; [len], slicing and
    [replace] all work on code points, so a [str] is a list of them. *)

Definition char := N.
Definition str := list char.

Definition lit (s : string) : str :=
  map N_of_ascii (list_ascii_of_string s).

Definition str_eq_dec : forall a b : str, {a = b} + {a <> b} :=
  list_eq_dec N.eq_dec.

Definition str_eqb (a b : str) : bool :=
  if str_eq_dec a b then true else false.

(** [x in xs] for a list or a set of strings. *)
Definition mem (x : str) (xs : list str) : bool :=
  existsb (str_eqb x) xs.

(** [c in s] for a one-character needle. *)
Definition char_in (c : char) (s : str) : bool :=
  existsb (N.eqb c) s.

(** [s.replace(a, b)] for one-character [a] and [b]. *)
Definition replace (a b : char) (s : str) : str :=
  map (fun c => if N.eqb c a then b else c) s.

(** [s[:k]], with Python's reading of a negative bound. *)
Definition slice_to (s : str) (k : Z) : str :=
  if (0 <=? k)%Z then firstn (Z.to_nat k) s
  else firstn (Z.to_nat (Z.of_nat (length s) + k)) s.

(** [sep.join(parts)]. *)
Fixpoint join (sep : str) (parts : list str) : str :=
  match parts with
  | [] => []
  | [p] => p
  | p :: rest => p ++ sep ++ join sep rest
  end.

Definition nl : char := 10%N.
Definition dquote : char := 34%N.
Definition squote : char := 39%N.
Definition space : char := 32%N.
Definition colon : char := 58%N.

(** [str(n)] for a natural number: its decimal digits. *)
Fixpoint str_of_uint (d : Decimal.uint) : str :=
  match d with
  | Decimal.Nil => []
  | Decimal.D0 d => 48%N :: str_of_uint d
  | Decimal.D1 d => 49%N :: str_of_uint d
  | Decimal.D2 d => 50%N :: str_of_uint d
  | Decimal.D3 d => 51%N :: str_of_uint d
  | Decimal.D4 d => 52%N :: str_of_uint d
  | Decimal.D5 d => 53%N :: str_of_uint d
  | Decimal.D6 d => 54%N :: str_of_uint d
  | Decimal.D7 d => 55%N :: str_of_uint d
  | Decimal.D8 d => 56%N :: str_of_uint d
  | Decimal.D9 d => 57%N :: str_of_uint d
  end.

Definition str_of_nat (n : nat) : str := str_of_uint (Nat.to_uint n).

(** ** Exceptions

    Every failure of the modelled code is a [ValueError]; it is identified by
    its message. *)

Inductive result (A : Type) : Type :=
| Ok (a : A)
| Raise (msg : str).

Arguments Ok {A} a.
Arguments Raise {A} msg.

Definition bind {A B} (r : result A) (k : A -> result B) : result B :=
  match r with
  | Ok a => k a
  | Raise m => Raise m
  end.

Notation "x <- r ;; k" := (bind r (fun x => k))
  (at level 61, r at next level, right associativity).
Notation "r ;;; k" := (bind r (fun _ => k))
  (at level 61, right associativity).

(** [for x in xs: body(x)], where the body may raise. *)
Fixpoint for_each {A} (xs : list A) (body : A -> result unit) : result unit :=
  match xs with
  | [] => Ok tt
  | x :: rest => body x ;;; for_each rest body
  end.

Definition is_ok {A} (r : result A) : bool :=
  match r with Ok _ => true | Raise _ => false end.

(** ** schemas.py: the data model *)

Record ConditionalLogic := {
  condition : str;
  true_path_task_id : str;
  false_path_task_id : option str
}.

Record KnowledgeItem := { k_id : str; k_description : str }.
Record SkillItem := { s_id : str; s_description : str }.

Record TaskObject := {
  task_id : str;
  task_description : str;
  role_owner : str;
  precedes_tasks : list str;
  dependencies : list str;
  conditional_logic : option ConditionalLogic;
  required_knowledge : list KnowledgeItem;
  required_skill_tags : list SkillItem
}.

Record JobWorkflowSchema := {
  workflow_name : str;
  tasks : list TaskObject
}.

(** Truth value of an optional string: [None] and [""] are false. *)
Definition truthy (o : option str) : option str :=
  match o with
  | Some (c :: s) => Some (c :: s)
  | _ => None
  end.

(** ** networkx.DiGraph, as far as schemas.py uses it

    Nodes and edges are kept in insertion order; adding a node or an edge that
    is already there changes nothing, and [add_edge] adds the end points it
    does not know yet. *)

Record DiGraph := {
  nodes : list str;
  edges : list (str * str)
}.

Definition empty_graph : DiGraph := {| nodes := []; edges := [] |}.

Definition edge_eqb (e f : str * str) : bool :=
  str_eqb (fst e) (fst f) && str_eqb (snd e) (snd f).

Definition add_node (G : DiGraph) (n : str) : DiGraph :=
  if mem n (nodes G) then G
  else {| nodes := nodes G ++ [n]; edges := edges G |}.

Definition add_edge (G : DiGraph) (u v : str) : DiGraph :=
  let G' := add_node (add_node G u) v in
  if existsb (edge_eqb (u, v)) (edges G') then G'
  else {| nodes := nodes G'; edges := edges G' ++ [(u, v)] |}.

(** [G.in_degree()] of one node: the number of its predecessors. *)
Definition in_degree (G : DiGraph) (v : str) : nat :=
  length (filter (fun e => str_eqb (snd e) v) (edges G)).

(** [v] has a predecessor among the nodes [rem]. *)
Definition has_pred_in (E : list (str * str)) (rem : list str) (v : str) : bool :=
  existsb (fun e => str_eqb (snd e) v && mem (fst e) rem) E.

(** [networkx.is_directed_acyclic_graph]: the graph is acyclic when its
    topological generations exhaust it.  One generation is the set of remaining
    nodes without a remaining predecessor; when a generation is empty, the
    nodes still remaining lie on or behind a cycle. *)
Fixpoint generations (fuel : nat) (E : list (str * str)) (rem : list str) : bool :=
  match fuel with
  | O => match rem with [] => true | _ => false end
  | S fuel' =>
      match filter (fun v => negb (has_pred_in E rem v)) rem with
      | [] => match rem with [] => true | _ => false end
      | _ :: _ => generations fuel' E (filter (has_pred_in E rem) rem)
      end
  end.

Definition is_directed_acyclic_graph (G : DiGraph) : bool :=
  generations (length (nodes G)) (edges G) (nodes G).

(** ** schemas.py: the validators of JobWorkflowSchema *)

Definition msg_dependency (d : str) : str :=
  lit "Dependency '" ++ d ++ lit "' not found".
Definition msg_successor (n : str) : str :=
  lit "Successor '" ++ n ++ lit "' not found".
Definition msg_cycles : str := lit "Workflow contains cycles".
Definition msg_no_root : str := lit "No root task detected".

(** The set [ids = {t.task_id for t in tasks}], used for membership only. *)
Definition ids_of (ts : list TaskObject) : list str := map task_id ts.

Definition check_task_refs (ids : list str) (t : TaskObject) : result unit :=
  for_each (dependencies t)
    (fun d => if negb (mem d ids) then Raise (msg_dependency d) else Ok tt) ;;;
  for_each (precedes_tasks t)
    (fun n => if negb (mem n ids) then Raise (msg_successor n) else Ok tt).

Definition _validate_refs (ts : list TaskObject) : result (list TaskObject) :=
  let ids := ids_of ts in
  for_each ts (check_task_refs ids) ;;;
  Ok ts.

(** The edges one task contributes, in the order the second loop of
    [_validate_dag] adds them. *)
Definition task_targets (t : TaskObject) : list str :=
  precedes_tasks t ++
  match conditional_logic t with
  | Some c =>
      true_path_task_id c ::
      match truthy (false_path_task_id c) with
      | Some f => [f]
      | None => []
      end
  | None => []
  end.

Definition add_task_edges (G : DiGraph) (t : TaskObject) : DiGraph :=
  fold_left (fun G n => add_edge G (task_id t) n) (task_targets t) G.

Definition build_graph (ts : list TaskObject) : DiGraph :=
  let G := fold_left (fun G t => add_node G (task_id t)) ts empty_graph in
  fold_left add_task_edges ts G.

Definition roots (G : DiGraph) : list str :=
  filter (fun n => Nat.eqb (in_degree G n) 0) (nodes G).

Definition _validate_dag (self : JobWorkflowSchema) : result JobWorkflowSchema :=
  let G := build_graph (tasks self) in
  if negb (is_directed_acyclic_graph G) then Raise msg_cycles
  else
    match roots G with
    | [] => Raise msg_no_root
    | _ :: _ => Ok self
    end.

(** [JobWorkflowSchema(workflow_name=..., tasks=...)]: the field validator
    runs first, the model validator after it. *)
Definition new_JobWorkflowSchema (name : str) (ts : list TaskObject)
  : result JobWorkflowSchema :=
  ts' <- _validate_refs ts ;;
  _validate_dag {| workflow_name := name; tasks := ts' |}.

(** A task with the given fields and every other field at its default. *)
Definition mk_task (id desc role : str) (succ deps : list str)
  (c : option ConditionalLogic) : TaskObject :=
  {| task_id := id; task_description := desc; role_owner := role;
     precedes_tasks := succ; dependencies := deps; conditional_logic := c;
     required_knowledge := []; required_skill_tags := [] |}.

Example cycle_detection_raises :
  new_JobWorkflowSchema (lit "Cycle")
    [ mk_task (lit "A") (lit "A") (lit "r") [lit "B"] [] None;
      mk_task (lit "B") (lit "B") (lit "r") [lit "A"] [] None ]
  = Raise msg_cycles.
Proof. vm_compute. reflexivity. Qed.

Example missing_ref_raises :
  new_JobWorkflowSchema (lit "BadRefs")
    [ mk_task (lit "A") (lit "A") (lit "r") [lit "Z"] [] None ]
  = Raise (msg_successor (lit "Z")).
Proof. vm_compute. reflexivity. Qed.

(** ** Walks and cycles of an edge list *)

Section Walks.

Variable E : list (str * str).

(** A walk of at least one edge. *)
Inductive walk : str -> str -> Prop :=
| walk_edge u v : In (u, v) E -> walk u v
| walk_step u w v : In (u, w) E -> walk w v -> walk u v.

Definition cyclic : Prop := exists v, walk v v.
Definition acyclic : Prop := forall v, ~ walk v v.

Lemma walk_trans u w v : walk u w -> walk w v -> walk u v.
Proof.
  induction 1 as [u w Huw | u x w Hux _ IH]; intros Hwv.
  - eapply walk_step; eauto.
  - eapply walk_step; eauto.
Qed.

Lemma walk_snoc u p v : walk u p -> In (p, v) E -> walk u v.
Proof.
  intros Hup Hpv. eapply walk_trans; [exact Hup | now apply walk_edge].
Qed.

(** The last edge of a walk. *)
Lemma walk_last u v :
  walk u v -> exists p, In (p, v) E /\ (p = u \/ walk u p).
Proof.
  induction 1 as [u v Huv | u w v Huw Hwv IH].
  - exists u. auto.
  - destruct IH as (p & Hpv & [-> | Hwp]).
    + exists w. split; [assumption | right; now apply walk_edge].
    + exists p. split; [assumption | right; eapply walk_step; eauto].
Qed.

Lemma acyclic_not_cyclic : acyclic <-> ~ cyclic.
Proof.
  unfold acyclic, cyclic. split.
  - intros H (v & Hv). exact (H v Hv).
  - intros H v Hv. apply H. now exists v.
Qed.

End Walks.

Arguments walk_edge {E} u v _.
Arguments walk_step {E} u w v _ _.

Lemma walk_incl E E' u v :
  (forall e, In e E -> In e E') -> walk E u v -> walk E' u v.
Proof.
  intros Hsub. induction 1 as [u v H | u w v H _ IH].
  - apply walk_edge. auto.
  - eapply walk_step; eauto.
Qed.

(** ** Membership tests *)

Lemma str_eqb_eq a b : str_eqb a b = true <-> a = b.
Proof.
  unfold str_eqb. destruct (str_eq_dec a b); split; congruence.
Qed.

Lemma str_eqb_refl a : str_eqb a a = true.
Proof. now apply str_eqb_eq. Qed.

Lemma str_eqb_neq a b : str_eqb a b = false <-> a <> b.
Proof.
  unfold str_eqb. destruct (str_eq_dec a b); split; congruence.
Qed.

Lemma mem_In x xs : mem x xs = true <-> In x xs.
Proof.
  unfold mem. rewrite existsb_exists. split.
  - intros (y & Hy & Heq). apply str_eqb_eq in Heq. now subst.
  - intros H. exists x. split; [assumption | apply str_eqb_refl].
Qed.

Lemma mem_not_In x xs : mem x xs = false <-> ~ In x xs.
Proof.
  rewrite <- mem_In. destruct (mem x xs); split; congruence.
Qed.

Lemma edge_mem_In e es : existsb (edge_eqb e) es = true <-> In e es.
Proof.
  rewrite existsb_exists. unfold edge_eqb. split.
  - intros ([a b] & Hin & Heq). apply andb_true_iff in Heq as [H1 H2].
    apply str_eqb_eq in H1, H2. destruct e; simpl in *; now subst.
  - intros H. exists e. now rewrite !str_eqb_refl.
Qed.

Lemma has_pred_in_spec E rem v :
  has_pred_in E rem v = true <-> exists u, In (u, v) E /\ In u rem.
Proof.
  unfold has_pred_in. rewrite existsb_exists. split.
  - intros ([u w] & Hin & Hb). apply andb_true_iff in Hb as [H1 H2]. simpl in *.
    apply str_eqb_eq in H1. apply mem_In in H2. subst. eauto.
  - intros (u & Hin & Hu). exists (u, v). simpl.
    rewrite str_eqb_refl. split; [assumption | now apply mem_In].
Qed.

Lemma filter_split_length {A} (f : A -> bool) (l : list A) :
  length (filter f l) + length (filter (fun x => negb (f x)) l) = length l.
Proof.
  induction l as [| x l IH]; simpl; [reflexivity |].
  destruct (f x); simpl; lia.
Qed.

(** ** The generation test decides acyclicity *)

(** Every node of a finite non-empty set has a predecessor (along a walk) in
    the set: then some walk closes. *)
Lemma closed_under_pred_cyclic E (n : nat) :
  forall l : list str,
    length l <= n ->
    l <> [] ->
    (forall v, In v l -> exists u, In u l /\ walk E u v) ->
    cyclic E.
Proof.
  induction n as [| n IH]; intros l Hlen Hne Hpred.
  - destruct l; [congruence | simpl in Hlen; lia].
  - destruct l as [| v l0]; [congruence |].
    destruct (Hpred v (or_introl eq_refl)) as (u & Hu & Huv).
    destruct (str_eq_dec u v) as [-> | Hneq]; [now exists v |].
    set (l' := remove str_eq_dec v l0).
    assert (Hin' : forall x, In x (v :: l0) -> x <> v -> In x l').
    { intros x [<- | Hx] Hxv; [congruence |]. now apply in_in_remove. }
    assert (Hsub : forall x, In x l' -> In x (v :: l0)).
    { intros x Hx. apply in_remove in Hx. right. tauto. }
    apply (IH l').
    + pose proof (remove_length_le str_eq_dec l0 v). simpl in Hlen.
      unfold l'. lia.
    + intros Hnil. specialize (Hin' u Hu Hneq). rewrite Hnil in Hin'. contradiction.
    + intros w Hw.
      destruct (Hpred w (Hsub w Hw)) as (p & Hp & Hpw).
      destruct (str_eq_dec p v) as [-> | Hpv].
      * exists u. split; [now apply Hin' | eapply walk_trans; eauto].
      * exists p. split; [now apply Hin' | assumption].
Qed.

Lemma generations_complete E fuel :
  forall rem, acyclic E -> length rem <= fuel -> generations fuel E rem = true.
Proof.
  induction fuel as [| fuel IH]; intros rem Hac Hlen; simpl.
  - destruct rem; [reflexivity | simpl in Hlen; lia].
  - destruct (filter (fun v => negb (has_pred_in E rem v)) rem) as [| z zs] eqn:Hz.
    + destruct rem as [| r rs]; [reflexivity |]. exfalso.
      apply (proj1 (acyclic_not_cyclic E) Hac).
      apply (closed_under_pred_cyclic E (length (r :: rs)) (r :: rs));
        [lia | discriminate |].
      intros v Hv.
      destruct (has_pred_in E (r :: rs) v) eqn:Hp.
      * apply has_pred_in_spec in Hp as (u & Huv & Hu).
        exists u. split; [assumption | now apply walk_edge].
      * assert (In v []) as [].
        { rewrite <- Hz. apply filter_In. now rewrite Hp. }
    + apply IH; [assumption |].
      pose proof (filter_split_length (has_pred_in E rem) rem) as Hsplit.
      rewrite Hz in Hsplit. simpl in Hsplit. lia.
Qed.

Lemma generations_sound E fuel :
  forall rem v,
    walk E v v ->
    (forall x, walk E x v -> walk E v x -> In x rem) ->
    generations fuel E rem = false.
Proof.
  induction fuel as [| fuel IH]; intros rem v Hv Hrem; simpl.
  - destruct rem; [destruct (Hrem v Hv Hv) | reflexivity].
  - destruct (filter (fun v => negb (has_pred_in E rem v)) rem) as [| z zs].
    + destruct rem; [destruct (Hrem v Hv Hv) | reflexivity].
    + apply (IH _ v Hv). intros x Hxv Hvx.
      apply filter_In. split; [now apply Hrem |].
      apply has_pred_in_spec.
      destruct (walk_last E v x Hvx) as (p & Hpx & [-> | Hvp]).
      * exists v. split; [assumption | now apply Hrem].
      * exists p. split; [assumption |].
        apply Hrem; [| assumption]. eapply walk_step; eauto.
Qed.

(** A graph is closed when the end points of its edges are nodes. *)
Definition closed_graph (G : DiGraph) : Prop :=
  forall u v, In (u, v) (edges G) -> In u (nodes G) /\ In v (nodes G).

Lemma walk_in_nodes G u v :
  closed_graph G -> walk (edges G) u v -> In u (nodes G) /\ In v (nodes G).
Proof.
  intros Hc. induction 1 as [u v H | u w v H _ IH].
  - now apply Hc.
  - split; [apply (Hc _ _ H) | apply IH].
Qed.

Lemma is_dag_iff G :
  closed_graph G ->
  is_directed_acyclic_graph G = true <-> acyclic (edges G).
Proof.
  intros Hc. unfold is_directed_acyclic_graph. split.
  - intros Hgen v Hv.
    rewrite (generations_sound (edges G) _ (nodes G) v Hv) in Hgen; [discriminate |].
    intros x Hxv _. apply (walk_in_nodes G x v Hc Hxv).
  - intros Hac. now apply generations_complete.
Qed.

(** ** What [build_graph] builds *)

(** The edge relation of a task list, read off the tasks. *)
Definition workflow_edges (ts : list TaskObject) : list (str * str) :=
  flat_map (fun t => map (pair (task_id t)) (task_targets t)) ts.

Lemma add_node_nodes G n x :
  In x (nodes (add_node G n)) <-> In x (nodes G) \/ x = n.
Proof.
  unfold add_node. destruct (mem n (nodes G)) eqn:Hm; simpl.
  - apply mem_In in Hm. split; [tauto | intros [H | ->]; assumption].
  - rewrite in_app_iff. simpl. intuition.
Qed.

Lemma add_node_edges G n : edges (add_node G n) = edges G.
Proof.
  unfold add_node. now destruct (mem n (nodes G)).
Qed.

Lemma add_edge_nodes G u v x :
  In x (nodes (add_edge G u v)) <-> In x (nodes G) \/ x = u \/ x = v.
Proof.
  unfold add_edge.
  destruct (existsb (edge_eqb (u, v)) (edges (add_node (add_node G u) v)));
    simpl; rewrite !add_node_nodes; tauto.
Qed.

Lemma add_edge_edges G u v e :
  In e (edges (add_edge G u v)) <-> In e (edges G) \/ e = (u, v).
Proof.
  unfold add_edge.
  destruct (existsb (edge_eqb (u, v)) (edges (add_node (add_node G u) v))) eqn:Hm;
    simpl; rewrite ?in_app_iff, !add_node_edges in *; simpl.
  - apply edge_mem_In in Hm. split; [tauto | intros [H | ->]; assumption].
  - intuition.
Qed.

Lemma add_node_closed G n : closed_graph G -> closed_graph (add_node G n).
Proof.
  intros Hc u v. rewrite add_node_edges, !add_node_nodes.
  intros H. destruct (Hc u v H). tauto.
Qed.

Lemma add_edge_closed G u v : closed_graph G -> closed_graph (add_edge G u v).
Proof.
  intros Hc a b. rewrite add_edge_edges, !add_edge_nodes.
  intros [H | H].
  - destruct (Hc a b H). tauto.
  - injection H as -> ->. tauto.
Qed.

Lemma add_task_edges_spec t :
  forall G,
    closed_graph G ->
    closed_graph (add_task_edges G t) /\
    (forall x, In x (nodes G) -> In x (nodes (add_task_edges G t))) /\
    (forall e, In e (edges (add_task_edges G t)) <->
               In e (edges G) \/ In e (map (pair (task_id t)) (task_targets t))).
Proof.
  unfold add_task_edges. induction (task_targets t) as [| n ns IH]; intros G Hc; simpl.
  - split; [assumption | split; [auto | intros e; tauto]].
  - destruct (IH (add_edge G (task_id t) n) (add_edge_closed _ _ _ Hc)) as (Hc' & Hn & He).
    split; [assumption |]. split.
    + intros x Hx. apply Hn. apply add_edge_nodes. tauto.
    + intros e. rewrite He, add_edge_edges. intuition.
Qed.

Lemma fold_add_task_edges_spec ts :
  forall G,
    closed_graph G ->
    closed_graph (fold_left add_task_edges ts G) /\
    (forall x, In x (nodes G) -> In x (nodes (fold_left add_task_edges ts G))) /\
    (forall e, In e (edges (fold_left add_task_edges ts G)) <->
               In e (edges G) \/ In e (workflow_edges ts)).
Proof.
  induction ts as [| t ts IH]; intros G Hc; simpl.
  - split; [assumption | split; [auto | intros e; tauto]].
  - destruct (add_task_edges_spec t G Hc) as (Hc1 & Hn1 & He1).
    destruct (IH _ Hc1) as (Hc2 & Hn2 & He2).
    split; [assumption |]. split; [auto |].
    intros e. rewrite He2, He1, in_app_iff. tauto.
Qed.

Lemma fold_add_node_spec ts :
  forall G,
    edges (fold_left (fun G t => add_node G (task_id t)) ts G) = edges G /\
    (forall x, In x (nodes (fold_left (fun G t => add_node G (task_id t)) ts G)) <->
               In x (nodes G) \/ In x (ids_of ts)).
Proof.
  induction ts as [| t ts IH]; intros G; simpl.
  - split; [reflexivity | tauto].
  - destruct (IH (add_node G (task_id t))) as (He & Hn). split.
    + now rewrite He, add_node_edges.
    + intros x. rewrite Hn, add_node_nodes. intuition.
Qed.

Lemma build_graph_closed ts : closed_graph (build_graph ts).
Proof.
  unfold build_graph.
  apply fold_add_task_edges_spec.
  intros u v. destruct (fold_add_node_spec ts empty_graph) as (-> & _).
  simpl. tauto.
Qed.

Lemma build_graph_edges ts e :
  In e (edges (build_graph ts)) <-> In e (workflow_edges ts).
Proof.
  unfold build_graph.
  destruct (fold_add_node_spec ts empty_graph) as (He0 & _).
  assert (Hc : closed_graph (fold_left (fun G t => add_node G (task_id t)) ts empty_graph)).
  { intros u v. rewrite He0. simpl. tauto. }
  destruct (fold_add_task_edges_spec ts _ Hc) as (_ & _ & He).
  rewrite He, He0. simpl. tauto.
Qed.

Lemma build_graph_ids ts x :
  In x (ids_of ts) -> In x (nodes (build_graph ts)).
Proof.
  intros Hx. unfold build_graph.
  destruct (fold_add_node_spec ts empty_graph) as (He0 & Hn0).
  assert (Hc : closed_graph (fold_left (fun G t => add_node G (task_id t)) ts empty_graph)).
  { intros u v. rewrite He0. simpl. tauto. }
  apply (fold_add_task_edges_spec ts _ Hc). apply Hn0. tauto.
Qed.

Lemma workflow_edges_In ts u v :
  In (u, v) (workflow_edges ts) <->
  exists t, In t ts /\ u = task_id t /\ In v (task_targets t).
Proof.
  unfold workflow_edges. rewrite in_flat_map. split.
  - intros (t & Ht & Hin). apply in_map_iff in Hin as (n & Heq & Hn).
    injection Heq as <- <-. eauto.
  - intros (t & Ht & -> & Hv). exists t. split; [assumption |].
    apply in_map_iff. eauto.
Qed.

Lemma build_graph_acyclic ts :
  is_directed_acyclic_graph (build_graph ts) = true <-> acyclic (workflow_edges ts).
Proof.
  rewrite (is_dag_iff _ (build_graph_closed ts)).
  unfold acyclic. split; intros H v Hv; apply (H v);
    revert Hv; apply walk_incl; intros e; apply build_graph_edges.
Qed.

(** A node has in-degree zero exactly when no edge enters it. *)
Lemma in_degree_zero G v :
  in_degree G v = 0 <-> forall u, ~ In (u, v) (edges G).
Proof.
  unfold in_degree. split.
  - intros H u Hu.
    assert (Hin : In (u, v) (filter (fun e => str_eqb (snd e) v) (edges G))).
    { apply filter_In. simpl. now rewrite str_eqb_refl. }
    destruct (filter _ (edges G)); [contradiction | discriminate].
  - intros H.
    destruct (filter (fun e => str_eqb (snd e) v) (edges G)) as [| [a b] l] eqn:Hf;
      [reflexivity |].
    assert (Hin : In (a, b) (filter (fun e => str_eqb (snd e) v) (edges G))).
    { rewrite Hf. now left. }
    apply filter_In in Hin as [Hin Hb]. simpl in Hb. apply str_eqb_eq in Hb.
    subst. destruct (H a Hin).
Qed.

Lemma roots_In G v :
  In v (roots G) <-> In v (nodes G) /\ forall u, ~ In (u, v) (edges G).
Proof.
  unfold roots. rewrite filter_In, Nat.eqb_eq, in_degree_zero. tauto.
Qed.

(** A non-empty closed acyclic graph has a root. *)
Lemma acyclic_has_root G :
  closed_graph G -> acyclic (edges G) -> nodes G <> [] -> roots G <> [].
Proof.
  intros Hc Hac Hne Hroots.
  apply (proj1 (acyclic_not_cyclic _) Hac).
  apply (closed_under_pred_cyclic (edges G) (length (nodes G)) (nodes G));
    [lia | assumption |].
  intros v Hv.
  destruct (has_pred_in (edges G) (nodes G) v) eqn:Hp.
  - apply has_pred_in_spec in Hp as (u & Huv & Hu).
    exists u. split; [assumption | now apply walk_edge].
  - assert (Hr : In v (roots G)).
    { apply roots_In. split; [assumption |]. intros u Hu.
      assert (has_pred_in (edges G) (nodes G) v = true); [| congruence].
      apply has_pred_in_spec. exists u. split; [assumption | apply (Hc u v Hu)]. }
    rewrite Hroots in Hr. contradiction.
Qed.

(** ** The validators, read as predicates *)

Lemma for_each_ok {A} (xs : list A) body :
  for_each xs body = Ok tt <-> forall x, In x xs -> body x = Ok tt.
Proof.
  induction xs as [| x xs IH]; simpl.
  - split; [intros _ x [] | reflexivity].
  - destruct (body x) as [[] | m] eqn:Hx; simpl.
    + rewrite IH. split.
      * intros H y [<- | Hy]; auto.
      * intros H y Hy. apply H. now right.
    + split; [discriminate |]. intros H.
      specialize (H x (or_introl eq_refl)). congruence.
Qed.

(** The first failing element decides the exception. *)
Lemma for_each_first {A} (pre post : list A) x body m :
  (forall y, In y pre -> body y = Ok tt) ->
  body x = Raise m ->
  for_each (pre ++ x :: post) body = Raise m.
Proof.
  induction pre as [| p pre IH]; intros Hpre Hx; simpl.
  - now rewrite Hx.
  - rewrite (Hpre p (or_introl eq_refl)). simpl.
    apply IH; [| assumption]. intros y Hy. apply Hpre. now right.
Qed.

Lemma for_each_cases {A} (xs : list A) body :
  for_each xs body = Ok tt \/
  exists pre x post m,
    xs = pre ++ x :: post /\ (forall y, In y pre -> body y = Ok tt) /\
    body x = Raise m /\ for_each xs body = Raise m.
Proof.
  induction xs as [| x xs IH]; simpl; [now left |].
  destruct (body x) as [[] | m] eqn:Hx; simpl.
  - destruct IH as [Hok | (pre & y & post & m & -> & Hpre & Hy & Hr)]; [now left |].
    right. exists (x :: pre), y, post, m. repeat split; auto.
    intros z [<- | Hz]; auto.
  - right. exists [], x, xs, m. repeat split; auto. intros y [].
Qed.

(** Every [depends_on] and [precedes] entry of every task names a task. *)
Definition deps_exist (ts : list TaskObject) : Prop :=
  forall t d, In t ts -> In d (dependencies t) -> In d (ids_of ts).
Definition succs_exist (ts : list TaskObject) : Prop :=
  forall t n, In t ts -> In n (precedes_tasks t) -> In n (ids_of ts).

Lemma check_task_refs_ok ids t :
  check_task_refs ids t = Ok tt <->
  (forall d, In d (dependencies t) -> In d ids) /\
  (forall n, In n (precedes_tasks t) -> In n ids).
Proof.
  unfold check_task_refs.
  destruct (for_each (dependencies t) _) as [[] | m] eqn:Hd; simpl.
  - rewrite for_each_ok in Hd. rewrite for_each_ok. split.
    + intros Hn. split.
      * intros d Hin. specialize (Hd d Hin).
        destruct (mem d ids) eqn:Hm; [now apply mem_In | discriminate].
      * intros n Hin. specialize (Hn n Hin).
        destruct (mem n ids) eqn:Hm; [now apply mem_In | discriminate].
    + intros [_ Hn] n Hin. apply Hn, mem_In in Hin. now rewrite Hin.
  - split; [discriminate |]. intros [Hdeps _].
    assert (Hall : for_each (dependencies t)
              (fun d => if negb (mem d ids) then Raise (msg_dependency d) else Ok tt)
            = Ok tt).
    { apply for_each_ok. intros d Hin. apply Hdeps, mem_In in Hin. now rewrite Hin. }
    congruence.
Qed.

Lemma validate_refs_ok ts :
  _validate_refs ts = Ok ts <-> deps_exist ts /\ succs_exist ts.
Proof.
  unfold _validate_refs, deps_exist, succs_exist.
  destruct (for_each ts (check_task_refs (ids_of ts))) as [[] | m] eqn:Hf; simpl.
  - rewrite for_each_ok in Hf. split; [| reflexivity]. intros _.
    split; intros t x Ht Hx; apply Hf, check_task_refs_ok in Ht;
      destruct Ht as [H1 H2]; auto.
  - split; [discriminate |]. intros [Hd Hs].
    assert (Hall : for_each ts (check_task_refs (ids_of ts)) = Ok tt).
    { apply for_each_ok. intros t Ht. apply check_task_refs_ok. split; eauto. }
    congruence.
Qed.

Lemma validate_refs_cases ts :
  _validate_refs ts = Ok ts \/ exists m, _validate_refs ts = Raise m.
Proof.
  unfold _validate_refs.
  destruct (for_each ts (check_task_refs (ids_of ts))) as [[] | m]; simpl; eauto.
Qed.

(** Construction succeeds exactly on the task lists that pass the three
    checks; what it returns is the workflow it was given. *)
Lemma new_JobWorkflowSchema_ok name ts wf :
  new_JobWorkflowSchema name ts = Ok wf <->
  wf = {| workflow_name := name; tasks := ts |} /\
  deps_exist ts /\ succs_exist ts /\
  acyclic (workflow_edges ts) /\ ts <> [].
Proof.
  unfold new_JobWorkflowSchema.
  destruct (validate_refs_cases ts) as [Hr | (m & Hr)]; rewrite Hr; simpl.
  - apply validate_refs_ok in Hr. unfold _validate_dag. simpl.
    destruct (is_directed_acyclic_graph (build_graph ts)) eqn:Hdag; simpl.
    + apply build_graph_acyclic in Hdag.
      destruct (roots (build_graph ts)) as [| r rs] eqn:Hroots.
      * split; [discriminate |]. intros (_ & _ & _ & _ & Hne). exfalso.
        apply (acyclic_has_root (build_graph ts)); auto using build_graph_closed.
        -- now apply (is_dag_iff _ (build_graph_closed ts)), build_graph_acyclic.
        -- destruct ts as [| t ts']; [congruence |].
           intros Hnil.
           pose proof (build_graph_ids (t :: ts') (task_id t) (or_introl eq_refl)) as Hin.
           rewrite Hnil in Hin. contradiction.
      * split.
        -- intros [= <-]. repeat split; try tauto.
           intros ->. vm_compute in Hroots. discriminate.
        -- intros (-> & _). reflexivity.
    + split; [discriminate |]. intros (_ & _ & _ & Hac & _).
      apply build_graph_acyclic in Hac. congruence.
  - split; [discriminate |]. intros (_ & Hd & Hs & _).
    assert (_validate_refs ts = Ok ts) by (apply validate_refs_ok; tauto).
    congruence.
Qed.

Lemma roots_nil_iff ts :
  is_directed_acyclic_graph (build_graph ts) = true ->
  (roots (build_graph ts) = [] <-> ts = []).
Proof.
  intros Hdag. split.
  - intros Hroots. destruct ts as [| t ts']; [reflexivity |]. exfalso.
    apply (acyclic_has_root (build_graph (t :: ts'))); auto using build_graph_closed.
    + now apply (is_dag_iff _ (build_graph_closed _)).
    + intros Hnil.
      pose proof (build_graph_ids (t :: ts') (task_id t) (or_introl eq_refl)) as Hin.
      rewrite Hnil in Hin. contradiction.
  - intros ->. reflexivity.
Qed.

(** The constructor, check by check. *)
Lemma new_JobWorkflowSchema_unfold name ts :
  new_JobWorkflowSchema name ts =
  match _validate_refs ts with
  | Raise m => Raise m
  | Ok _ =>
      if is_directed_acyclic_graph (build_graph ts) then
        match ts with
        | [] => Raise msg_no_root
        | _ :: _ => Ok {| workflow_name := name; tasks := ts |}
        end
      else Raise msg_cycles
  end.
Proof.
  unfold new_JobWorkflowSchema.
  destruct (validate_refs_cases ts) as [Hr | (m & Hr)]; rewrite Hr; simpl;
    [| reflexivity].
  unfold _validate_dag. simpl.
  destruct (is_directed_acyclic_graph (build_graph ts)) eqn:Hdag; simpl;
    [| reflexivity].
  pose proof (roots_nil_iff ts Hdag) as Hroots.
  destruct (roots (build_graph ts)) as [| r rs], ts as [| t ts']; try reflexivity.
  - destruct Hroots as [H _]. discriminate (H eq_refl).
  - destruct Hroots as [_ H]. discriminate (H eq_refl).
Qed.

(** What the reference check can raise. *)
Lemma check_task_refs_raise ids t m :
  check_task_refs ids t = Raise m ->
  (exists d, In d (dependencies t) /\ ~ In d ids /\ m = msg_dependency d) \/
  (exists n, In n (precedes_tasks t) /\ ~ In n ids /\ m = msg_successor n).
Proof.
  unfold check_task_refs.
  destruct (for_each_cases (dependencies t)
              (fun d => if negb (mem d ids) then Raise (msg_dependency d) else Ok tt))
    as [Hok | (pre & d & post & m' & Heq & _ & Hd & Hr)].
  - rewrite Hok. simpl. intros H.
    destruct (for_each_cases (precedes_tasks t)
                (fun n => if negb (mem n ids) then Raise (msg_successor n) else Ok tt))
      as [Hok' | (pre & n & post & m' & Heq & _ & Hn & Hr)]; [congruence |].
    right. exists n. destruct (mem n ids) eqn:Hm; simpl in Hn; [discriminate |].
    rewrite Heq, in_app_iff. simpl. apply mem_not_In in Hm.
    repeat split; auto; congruence.
  - rewrite Hr. simpl. intros [= <-].
    left. exists d. destruct (mem d ids) eqn:Hm; simpl in Hd; [discriminate |].
    rewrite Heq, in_app_iff. simpl. apply mem_not_In in Hm.
    repeat split; auto; congruence.
Qed.

Lemma validate_refs_raise ts m :
  _validate_refs ts = Raise m ->
  (exists d, m = msg_dependency d) \/ (exists n, m = msg_successor n).
Proof.
  unfold _validate_refs.
  destruct (for_each_cases ts (check_task_refs (ids_of ts)))
    as [Hok | (pre & t & post & m' & _ & _ & Ht & Hr)]; rewrite ?Hok, ?Hr; simpl;
    [discriminate |].
  intros [= <-].
  destruct (check_task_refs_raise _ _ _ Ht) as [(d & _ & _ & ->) | (n & _ & _ & ->)];
    eauto.
Qed.

(** ** The root check *)

(** C10: the constructor raises "No root task detected" exactly on the empty
    task list.  A workflow with at least one task that passes the reference
    check and the cycle check has a node of in-degree zero, so the root check
    cannot fail on it; the empty task list passes the two earlier checks and is
    rejected by the root check. *)
Theorem no_root_iff_empty :
  forall (name : str) (ts : list TaskObject),
    (new_JobWorkflowSchema name ts = Raise msg_no_root <-> ts = []) /\
    (ts <> [] ->
     _validate_refs ts = Ok ts ->
     is_directed_acyclic_graph (build_graph ts) = true ->
     exists r, In r (nodes (build_graph ts)) /\ in_degree (build_graph ts) r = 0).
Proof.
  intros name ts. split.
  - rewrite new_JobWorkflowSchema_unfold. split.
    + destruct (_validate_refs ts) as [ts' | m] eqn:Hr.
      * destruct (is_directed_acyclic_graph (build_graph ts)).
        -- destruct ts; [reflexivity | discriminate].
        -- intros H. vm_compute in H. discriminate.
      * intros [= ->].
        destruct (validate_refs_raise _ _ Hr) as [(d & H) | (n & H)];
          vm_compute in H; discriminate.
    + intros ->. reflexivity.
  - intros Hne _ Hdag.
    destruct (roots (build_graph ts)) as [| r rs] eqn:Hroots.
    + apply (roots_nil_iff ts Hdag) in Hroots. contradiction.
    + exists r.
      assert (Hin : In r (roots (build_graph ts))) by (rewrite Hroots; now left).
      apply roots_In in Hin as [Hn Hz]. split; [assumption |].
      now apply in_degree_zero.
Qed.

(** ** The cycle check *)

(** An ordered list of task ids that forms a cycle of an edge list: each id is
    joined to the next by an edge, and the last to the first. *)
Fixpoint chain (E : list (str * str)) (p : list str) : Prop :=
  match p with
  | x :: (y :: _) as rest => In (x, y) E /\ chain E rest
  | _ => True
  end.

Definition cycle_path (E : list (str * str)) (p : list str) : Prop :=
  match p with
  | [] => False
  | x :: _ => chain E (p ++ [x])
  end.

Definition tasks_cycle_AB : list TaskObject :=
  [ mk_task (lit "A") (lit "A") (lit "r") [lit "B"] [] None;
    mk_task (lit "B") (lit "B") (lit "r") [lit "A"] [] None ].

Definition tasks_cycle_CD : list TaskObject :=
  [ mk_task (lit "C") (lit "C") (lit "r") [lit "D"] [] None;
    mk_task (lit "D") (lit "D") (lit "r") [lit "C"] [] None ].

Lemma cyclic_not_dag ts :
  cyclic (workflow_edges ts) -> is_directed_acyclic_graph (build_graph ts) = false.
Proof.
  intros Hc.
  destruct (is_directed_acyclic_graph (build_graph ts)) eqn:Hdag; [| reflexivity].
  apply build_graph_acyclic, acyclic_not_cyclic in Hdag. contradiction.
Qed.

Lemma tasks_cycle_AB_cyclic : cyclic (workflow_edges tasks_cycle_AB).
Proof.
  exists (lit "A"). apply (walk_step (lit "A") (lit "B") (lit "A")).
  - simpl. left. reflexivity.
  - apply walk_edge. simpl. right. left. reflexivity.
Defined.

Lemma tasks_cycle_CD_cyclic : cyclic (workflow_edges tasks_cycle_CD).
Proof.
  exists (lit "C"). apply (walk_step (lit "C") (lit "D") (lit "C")).
  - simpl. left. reflexivity.
  - apply walk_edge. simpl. right. left. reflexivity.
Qed.

Lemma chain_head E x y rest : chain E (x :: y :: rest) -> In (x, y) E.
Proof. simpl. tauto. Qed.

(** C3, as stated, fails: the exception raised for a cycle is the same for
    every cyclic workflow, so no reading of it yields the ids on the cycle.
    The workflows A<->B and C<->D raise the same exception and share no
    edge. *)
Lemma cycle_error_carries_no_path :
  ~ exists path_of : str -> list str,
      forall (name : str) (ts : list TaskObject),
        cyclic (workflow_edges ts) ->
        exists m, new_JobWorkflowSchema name ts = Raise m /\
                  cycle_path (workflow_edges ts) (path_of m).
Proof.
  intros (path_of & H).
  destruct (H (lit "W") tasks_cycle_AB tasks_cycle_AB_cyclic) as (m1 & Hm1 & Hp1).
  destruct (H (lit "W") tasks_cycle_CD tasks_cycle_CD_cyclic) as (m2 & Hm2 & Hp2).
  vm_compute in Hm1. vm_compute in Hm2.
  injection Hm1 as <-. injection Hm2 as <-.
  unfold cycle_path in Hp1, Hp2.
  destruct (path_of _) as [| x rest]; [exact Hp1 |].
  assert (Hex : exists y tl, (x :: rest) ++ [x] = x :: y :: tl).
  { destruct rest as [| y tl]; simpl; eauto. }
  destruct Hex as (y & tl & Heq). rewrite Heq in Hp1, Hp2.
  apply chain_head in Hp1, Hp2.
  simpl in Hp1, Hp2.
  destruct Hp1 as [Hp1 | [Hp1 | []]]; destruct Hp2 as [Hp2 | [Hp2 | []]];
    rewrite <- Hp1 in Hp2; vm_compute in Hp2; discriminate.
Qed.

(** C3, amended: construction of a workflow whose graph of [precedes] and
    conditional edges has a cycle always fails; when every [depends_on] and
    [precedes] entry names a task, the failure is the exception "Workflow
    contains cycles", which names no task. *)
Theorem cycle_raises :
  forall (name : str) (ts : list TaskObject),
    cyclic (workflow_edges ts) ->
    (exists m, new_JobWorkflowSchema name ts = Raise m) /\
    (deps_exist ts -> succs_exist ts ->
     new_JobWorkflowSchema name ts = Raise msg_cycles).
Proof.
  intros name ts Hc. rewrite new_JobWorkflowSchema_unfold.
  rewrite (cyclic_not_dag ts Hc). split.
  - destruct (_validate_refs ts); eauto.
  - intros Hd Hs.
    assert (Hr : _validate_refs ts = Ok ts) by (apply validate_refs_ok; tauto).
    now rewrite Hr.
Qed.

Lemma tasks_cycle_AB_refs : deps_exist tasks_cycle_AB /\ succs_exist tasks_cycle_AB.
Proof.
  apply validate_refs_ok. vm_compute. reflexivity.
Defined.

Lemma cycle_raises_witness :
  cyclic (workflow_edges tasks_cycle_AB) /\
  new_JobWorkflowSchema (lit "Cycle") tasks_cycle_AB = Raise msg_cycles.
Proof.
  split; [exact tasks_cycle_AB_cyclic |].
  apply (cycle_raises (lit "Cycle") tasks_cycle_AB tasks_cycle_AB_cyclic);
    apply tasks_cycle_AB_refs.
Defined.

(** ** [depends_on] and the graph *)

Definition set_dependencies (t : TaskObject) (deps : list str) : TaskObject :=
  {| task_id := task_id t; task_description := task_description t;
     role_owner := role_owner t; precedes_tasks := precedes_tasks t;
     dependencies := deps; conditional_logic := conditional_logic t;
     required_knowledge := required_knowledge t;
     required_skill_tags := required_skill_tags t |}.

(** A and B depend on each other; no [precedes], no conditional. *)
Definition tasks_mutual_deps : list TaskObject :=
  [ mk_task (lit "A") (lit "A") (lit "r") [] [lit "B"] None;
    mk_task (lit "B") (lit "B") (lit "r") [] [lit "A"] None ].

(** A single task whose successor does not exist. *)
Definition tasks_dangling_successor : list TaskObject :=
  [ mk_task (lit "A") (lit "A") (lit "r") [lit "Z"] [] None ].

(** The graph has a node of in-degree zero among the tasks. *)
Definition has_root (ts : list TaskObject) : Prop :=
  exists r, In r (ids_of ts) /\ forall u, ~ In (u, r) (workflow_edges ts).

Lemma build_graph_set_dependencies (f : TaskObject -> list str) ts :
  build_graph (map (fun t => set_dependencies t (f t)) ts) = build_graph ts.
Proof.
  unfold build_graph.
  assert (Hnodes : forall G,
    fold_left (fun G t => add_node G (task_id t))
      (map (fun t => set_dependencies t (f t)) ts) G
    = fold_left (fun G t => add_node G (task_id t)) ts G).
  { induction ts as [| t ts IH]; intros G; simpl; [reflexivity | apply IH]. }
  rewrite Hnodes. clear Hnodes.
  generalize (fold_left (fun G t => add_node G (task_id t)) ts empty_graph).
  induction ts as [| t ts IH]; intros G; simpl; [reflexivity | apply IH].
Qed.

(** The [depends_on] relation as an edge list, dependent first. *)
Definition dependency_edges (ts : list TaskObject) : list (str * str) :=
  flat_map (fun t => map (pair (task_id t)) (dependencies t)) ts.

Lemma has_root_nonempty ts : has_root ts -> ts <> [].
Proof.
  intros (r & Hr & _) ->. exact Hr.
Qed.

Lemma acyclic_by_check ts :
  is_directed_acyclic_graph (build_graph ts) = true -> acyclic (workflow_edges ts).
Proof. apply build_graph_acyclic. Qed.

(** C4, as stated, fails: with every [depends_on] entry naming a task and an
    acyclic graph that has a root, construction is still rejected when a
    [precedes] entry names no task. *)
Lemma dangling_successor_rejected :
  deps_exist tasks_dangling_successor /\
  acyclic (workflow_edges tasks_dangling_successor) /\
  has_root tasks_dangling_successor /\
  new_JobWorkflowSchema (lit "W") tasks_dangling_successor
  = Raise (msg_successor (lit "Z")).
Proof.
  split; [| split; [| split]].
  - intros t d [<- | []] [].
  - apply acyclic_by_check. vm_compute. reflexivity.
  - exists (lit "A"). split; [now left |].
    intros u [H | []]. vm_compute in H. discriminate.
  - vm_compute. reflexivity.
Qed.

(** C4, amended: [depends_on] contributes no edge, whatever is written in it
    the graph is the same; and every workflow whose [depends_on] and
    [precedes] entries all name tasks and whose graph of [precedes] and
    conditional edges is acyclic with a node of in-degree zero constructs
    successfully, also when [depends_on] itself is cyclic. *)
Theorem depends_on_adds_no_edges :
  forall (name : str) (ts : list TaskObject),
    deps_exist ts ->
    succs_exist ts ->
    acyclic (workflow_edges ts) ->
    has_root ts ->
    (forall f : TaskObject -> list str,
        build_graph (map (fun t => set_dependencies t (f t)) ts) = build_graph ts) /\
    new_JobWorkflowSchema name ts = Ok {| workflow_name := name; tasks := ts |}.
Proof.
  intros name ts Hd Hs Hac Hroot. split.
  - intros f. apply build_graph_set_dependencies.
  - apply new_JobWorkflowSchema_ok.
    repeat split; auto using has_root_nonempty.
Qed.

Lemma depends_on_adds_no_edges_witness :
  cyclic (dependency_edges tasks_mutual_deps) /\
  new_JobWorkflowSchema (lit "W") tasks_mutual_deps
  = Ok {| workflow_name := lit "W"; tasks := tasks_mutual_deps |}.
Proof.
  split.
  - exists (lit "A"). apply (walk_step (lit "A") (lit "B") (lit "A")).
    + simpl. left. reflexivity.
    + apply walk_edge. simpl. right. left. reflexivity.
  - apply (depends_on_adds_no_edges (lit "W") tasks_mutual_deps).
    + apply validate_refs_ok. vm_compute. reflexivity.
    + apply validate_refs_ok. vm_compute. reflexivity.
    + apply acyclic_by_check. vm_compute. reflexivity.
    + exists (lit "A"). split; [simpl; left; reflexivity |].
      intros u H. simpl in H. exact H.
Defined.

(** ** Repeated task ids *)

Definition task_A : TaskObject :=
  mk_task (lit "A") (lit "A") (lit "r") [] [] None.

Lemma for_each_ext {A} (xs : list A) f g :
  (forall x, f x = g x) -> for_each xs f = for_each xs g.
Proof.
  intros H. induction xs as [| x xs IH]; simpl; [reflexivity |].
  now rewrite H, IH.
Qed.

Lemma for_each_app {A} (xs ys : list A) body :
  for_each (xs ++ ys) body = for_each xs body ;;; for_each ys body.
Proof.
  induction xs as [| x xs IH]; simpl; [reflexivity |].
  destruct (body x); simpl; [apply IH | reflexivity].
Qed.

Lemma mem_ext x xs ys :
  (forall y, In y xs <-> In y ys) -> mem x xs = mem x ys.
Proof.
  intros H. destruct (mem x ys) eqn:Hy.
  - apply mem_In. apply H. now apply mem_In.
  - apply mem_not_In. rewrite H. now apply mem_not_In.
Qed.

Lemma check_task_refs_ext ids ids' t :
  (forall y, In y ids <-> In y ids') ->
  check_task_refs ids t = check_task_refs ids' t.
Proof.
  intros H. unfold check_task_refs.
  rewrite (for_each_ext (dependencies t) _
             (fun d => if negb (mem d ids') then Raise (msg_dependency d) else Ok tt)).
  - rewrite (for_each_ext (precedes_tasks t) _
               (fun n => if negb (mem n ids') then Raise (msg_successor n) else Ok tt)).
    + reflexivity.
    + intros n. now rewrite (mem_ext n ids ids' H).
  - intros d. now rewrite (mem_ext d ids ids' H).
Qed.

Lemma ids_of_app_copy ts t y :
  In t ts -> In y (ids_of (ts ++ [t])) <-> In y (ids_of ts).
Proof.
  intros Ht. unfold ids_of. rewrite map_app, in_app_iff. simpl. split.
  - intros [H | [<- | []]]; [assumption | now apply in_map].
  - tauto.
Qed.

Lemma validate_refs_app_copy ts t :
  In t ts ->
  _validate_refs (ts ++ [t]) =
  match _validate_refs ts with
  | Ok _ => Ok (ts ++ [t])
  | Raise m => Raise m
  end.
Proof.
  intros Ht. unfold _validate_refs.
  rewrite (for_each_ext (ts ++ [t]) _ (check_task_refs (ids_of ts))).
  - rewrite for_each_app. simpl.
    destruct (for_each ts (check_task_refs (ids_of ts))) as [[] | m] eqn:Hf; simpl;
      [| reflexivity].
    rewrite for_each_ok in Hf. now rewrite (Hf t Ht).
  - intros u. apply check_task_refs_ext. intros y. now apply ids_of_app_copy.
Qed.

Lemma workflow_edges_app_copy ts t e :
  In t ts -> In e (workflow_edges (ts ++ [t])) <-> In e (workflow_edges ts).
Proof.
  intros Ht. unfold workflow_edges. rewrite flat_map_app, in_app_iff. simpl.
  rewrite app_nil_r. split; [| tauto].
  intros [H | H]; [assumption |]. apply in_flat_map. eauto.
Qed.

Lemma is_dag_app_copy ts t :
  In t ts ->
  is_directed_acyclic_graph (build_graph (ts ++ [t]))
  = is_directed_acyclic_graph (build_graph ts).
Proof.
  intros Ht.
  assert (Hiff : acyclic (workflow_edges (ts ++ [t])) <-> acyclic (workflow_edges ts)).
  { unfold acyclic. split; intros H v Hv; apply (H v); revert Hv;
      apply walk_incl; intros e; now apply workflow_edges_app_copy. }
  rewrite <- !build_graph_acyclic in Hiff.
  destruct (is_directed_acyclic_graph (build_graph (ts ++ [t])));
    destruct (is_directed_acyclic_graph (build_graph ts)); try reflexivity.
  - symmetry. now apply Hiff.
  - now apply Hiff.
Qed.

(** C1, as stated, fails: a task list that holds the same task twice is
    accepted. *)
Lemma duplicate_task_id_constructs :
  new_JobWorkflowSchema (lit "W") [task_A; task_A]
  = Ok {| workflow_name := lit "W"; tasks := [task_A; task_A] |} /\
  ~ NoDup (ids_of [task_A; task_A]).
Proof.
  split.
  - vm_compute. reflexivity.
  - intros H. inversion H as [| x l Hnot _]. apply Hnot. now left.
Qed.

(** C1, amended: construction has no check of task-id uniqueness.  Appending
    a copy of a task that is already in the list, which makes its id occur
    twice, leaves the outcome as it was: the same exception, or success. *)
Theorem duplicate_task_ids_not_checked :
  forall (name : str) (ts : list TaskObject) (t : TaskObject),
    In t ts ->
    ~ NoDup (ids_of (ts ++ [t])) /\
    new_JobWorkflowSchema name (ts ++ [t]) =
    match new_JobWorkflowSchema name ts with
    | Ok _ => Ok {| workflow_name := name; tasks := ts ++ [t] |}
    | Raise m => Raise m
    end.
Proof.
  intros name ts t Ht. split.
  - unfold ids_of. rewrite map_app. simpl. intros Hnd.
    apply NoDup_remove_2 in Hnd. apply Hnd. rewrite app_nil_r. now apply in_map.
  - rewrite !new_JobWorkflowSchema_unfold.
    rewrite (validate_refs_app_copy ts t Ht), (is_dag_app_copy ts t Ht).
    destruct (_validate_refs ts) as [ts' | m]; [| reflexivity].
    destruct (is_directed_acyclic_graph (build_graph ts)); [| reflexivity].
    destruct ts as [| t0 ts0]; [destruct Ht | reflexivity].
Qed.

Lemma duplicate_task_ids_not_checked_witness :
  ~ NoDup (ids_of ([task_A] ++ [task_A])) /\
  new_JobWorkflowSchema (lit "W") ([task_A] ++ [task_A])
  = Ok {| workflow_name := lit "W"; tasks := [task_A] ++ [task_A] |}.
Proof.
  destruct (duplicate_task_ids_not_checked (lit "W") [task_A] task_A) as [Hnd Hnew].
  - simpl. left. reflexivity.
  - split; [exact Hnd | exact Hnew].
Defined.

(** ** The reference check *)

(** One task with a missing successor X and a missing dependency Y. *)
Definition tasks_two_missing : list TaskObject :=
  [ mk_task (lit "A") (lit "A") (lit "r") [lit "X"] [lit "Y"] None ].

(** One task whose conditional targets name no task. *)
Definition tasks_dangling_branch : list TaskObject :=
  [ mk_task (lit "A") (lit "A") (lit "r") [] []
      (Some {| condition := lit "ok?";
               true_path_task_id := lit "Z1";
               false_path_task_id := Some (lit "Z2") |}) ].

(** Every reference of the tasks [pre] names a task of [ids]. *)
Definition refs_in (ids : list str) (pre : list TaskObject) : Prop :=
  forall t x,
    In t pre -> In x (dependencies t) \/ In x (precedes_tasks t) -> In x ids.

Lemma refs_in_check ids pre t :
  refs_in ids pre -> In t pre -> check_task_refs ids t = Ok tt.
Proof.
  intros H Ht. apply check_task_refs_ok. split; intros x Hx; apply (H t x); auto.
Qed.

Lemma check_dependency_first ids t okd d rest :
  dependencies t = okd ++ d :: rest ->
  (forall x, In x okd -> In x ids) ->
  ~ In d ids ->
  check_task_refs ids t = Raise (msg_dependency d).
Proof.
  intros Heq Hok Hd. unfold check_task_refs. rewrite Heq.
  rewrite (for_each_first okd rest d _ (msg_dependency d)); [reflexivity | |].
  - intros y Hy. apply Hok, mem_In in Hy. now rewrite Hy.
  - apply mem_not_In in Hd. now rewrite Hd.
Qed.

Lemma check_successor_next ids t okn n rest :
  (forall d, In d (dependencies t) -> In d ids) ->
  precedes_tasks t = okn ++ n :: rest ->
  (forall x, In x okn -> In x ids) ->
  ~ In n ids ->
  check_task_refs ids t = Raise (msg_successor n).
Proof.
  intros Hdeps Heq Hok Hn. unfold check_task_refs.
  assert (Hd : for_each (dependencies t)
            (fun d => if negb (mem d ids) then Raise (msg_dependency d) else Ok tt)
          = Ok tt).
  { apply for_each_ok. intros d Hin. apply Hdeps, mem_In in Hin. now rewrite Hin. }
  rewrite Hd, Heq. simpl.
  apply for_each_first.
  - intros y Hy. apply Hok, mem_In in Hy. now rewrite Hy.
  - apply mem_not_In in Hn. now rewrite Hn.
Qed.

Lemma new_raises_first name pre t post m :
  refs_in (ids_of (pre ++ t :: post)) pre ->
  check_task_refs (ids_of (pre ++ t :: post)) t = Raise m ->
  new_JobWorkflowSchema name (pre ++ t :: post) = Raise m.
Proof.
  intros Hpre Ht. unfold new_JobWorkflowSchema, _validate_refs.
  rewrite (for_each_first pre post t _ m); [reflexivity | | assumption].
  intros y Hy. now apply (refs_in_check _ pre).
Qed.

(** C2, as stated, fails twice: with a missing successor and a missing
    dependency in one task, the dependency is reported; and conditional
    targets that name no task are accepted. *)
Lemma reference_check_counterexample :
  new_JobWorkflowSchema (lit "W") tasks_two_missing
  = Raise (msg_dependency (lit "Y")) /\
  msg_dependency (lit "Y") <> msg_successor (lit "X") /\
  new_JobWorkflowSchema (lit "W") tasks_dangling_branch
  = Ok {| workflow_name := lit "W"; tasks := tasks_dangling_branch |}.
Proof.
  split; [| split].
  - vm_compute. reflexivity.
  - vm_compute. discriminate.
  - vm_compute. reflexivity.
Qed.

(** C2, amended: the reference check covers [depends_on] and [precedes];
    construction fails whenever one of them names no task.  The missing
    reference reported first is found by going through the tasks in
    declaration order and, within a task, through [depends_on] in order and
    then through [precedes] in order. *)
Theorem reference_check_order :
  forall (name : str) (pre post : list TaskObject) (t : TaskObject),
    refs_in (ids_of (pre ++ t :: post)) pre ->
    (forall okd d rest,
        dependencies t = okd ++ d :: rest ->
        (forall x, In x okd -> In x (ids_of (pre ++ t :: post))) ->
        ~ In d (ids_of (pre ++ t :: post)) ->
        new_JobWorkflowSchema name (pre ++ t :: post) = Raise (msg_dependency d)) /\
    (forall okn n rest,
        (forall d, In d (dependencies t) -> In d (ids_of (pre ++ t :: post))) ->
        precedes_tasks t = okn ++ n :: rest ->
        (forall x, In x okn -> In x (ids_of (pre ++ t :: post))) ->
        ~ In n (ids_of (pre ++ t :: post)) ->
        new_JobWorkflowSchema name (pre ++ t :: post) = Raise (msg_successor n)) /\
    (forall ts u x,
        In u ts ->
        In x (dependencies u) \/ In x (precedes_tasks u) ->
        ~ In x (ids_of ts) ->
        exists m, new_JobWorkflowSchema name ts = Raise m).
Proof.
  intros name pre post t Hpre. split; [| split].
  - intros okd d rest Heq Hok Hd.
    apply new_raises_first; [assumption |].
    now apply (check_dependency_first _ t okd d rest).
  - intros okn n rest Hdeps Heq Hok Hn.
    apply new_raises_first; [assumption |].
    now apply (check_successor_next _ t okn n rest).
  - intros ts u x Hu Hx Hnot.
    destruct (new_JobWorkflowSchema name ts) as [wf | m] eqn:Hnew; [| eauto].
    apply new_JobWorkflowSchema_ok in Hnew as (_ & Hd & Hs & _).
    exfalso. apply Hnot. destruct Hx as [Hx | Hx]; [apply (Hd u) | apply (Hs u)]; auto.
Qed.

Lemma reference_check_order_witness :
  refs_in (ids_of ([task_A] ++ mk_task (lit "B") (lit "B") (lit "r")
                      [lit "X"] [lit "A"; lit "Y"] None :: [])) [task_A] /\
  new_JobWorkflowSchema (lit "W")
    ([task_A] ++ mk_task (lit "B") (lit "B") (lit "r")
                   [lit "X"] [lit "A"; lit "Y"] None :: [])
  = Raise (msg_dependency (lit "Y")).
Proof.
  assert (Hpre : refs_in (ids_of ([task_A] ++ mk_task (lit "B") (lit "B") (lit "r")
                      [lit "X"] [lit "A"; lit "Y"] None :: [])) [task_A]).
  { intros t x [<- | []] [[] | []]. }
  split; [exact Hpre |].
  destruct (reference_check_order (lit "W") [task_A] []
              (mk_task (lit "B") (lit "B") (lit "r") [lit "X"] [lit "A"; lit "Y"] None)
              Hpre) as (Hdep & _ & _).
  apply (Hdep [lit "A"] (lit "Y") []).
  - reflexivity.
  - intros x [<- | []]. simpl. left. reflexivity.
  - simpl. intros [H | [H | []]]; vm_compute in H; discriminate.
Defined.

(** ** mermaid.py *)

(** [Mermaid._sanitize].  The argument is always a [str] here, so
    [text or ""] is [text]. *)
Definition _sanitize (text : str) (max_len : Z) : str :=
  let t := replace dquote squote (replace nl space text) in
  if (Z.of_nat (length t) >? max_len)%Z
  then slice_to t (max_len - 1) ++ lit "..."
  else t.

Definition indent : str := lit "    ".

(** The entry appended to [lines] for one task by the first loop. *)
Definition node_line (t : TaskObject) : str :=
  let role := match role_owner t with [] => lit "role?" | _ :: _ => role_owner t end in
  let label := _sanitize (task_description t) 120 in
  indent ++ task_id t ++ lit "([" ++ [dquote] ++ label ++ [nl]
    ++ lit "<sub>" ++ role ++ lit "</sub>" ++ [dquote] ++ lit "])".

Definition plain_edge (src nxt : str) : str :=
  indent ++ src ++ lit " --> " ++ nxt.

Definition labelled_edge (src label dst : str) : str :=
  indent ++ src ++ lit " -- " ++ [dquote] ++ label ++ [dquote] ++ lit " --> " ++ dst.

(** The entries appended to [lines] for one task by the second loop. *)
Definition edge_lines (t : TaskObject) : list str :=
  map (plain_edge (task_id t)) (precedes_tasks t) ++
  match conditional_logic t with
  | Some c =>
      labelled_edge (task_id t) (_sanitize (condition c) 60) (true_path_task_id c) ::
      match truthy (false_path_task_id c) with
      | Some f => [labelled_edge (task_id t) (lit "Else") f]
      | None => []
      end
  | None => []
  end.

Definition is_decision (t : TaskObject) : bool :=
  match conditional_logic t with Some _ => true | None => false end.

Definition style_lines (ts : list TaskObject) : list str :=
  match map task_id (filter is_decision ts) with
  | [] => []
  | dec =>
      lit "    classDef decisionNode fill:#ffe4b5,stroke:#333;" ::
      map (fun n => lit "    class " ++ n ++ lit " decisionNode;") dec
  end.

(** The list [lines] at the end of [Mermaid.render]. *)
Definition render_lines (workflow : JobWorkflowSchema) : list str :=
  [lit "graph TD"]
    ++ map node_line (tasks workflow)
    ++ flat_map edge_lines (tasks workflow)
    ++ style_lines (tasks workflow).

Definition render (workflow : JobWorkflowSchema) : str :=
  join [nl] (render_lines workflow).

Example mermaid_basic :
  render {| workflow_name := lit "WF";
            tasks := [mk_task (lit "T1") (lit "Do a thing") (lit "Role") [] [] None] |}
  = lit "graph TD" ++ [nl] ++ lit "    T1([" ++ [dquote] ++ lit "Do a thing" ++ [nl]
      ++ lit "<sub>Role</sub>" ++ [dquote] ++ lit "])".
Proof. vm_compute. reflexivity. Qed.

Example sanitize_quotes_and_newlines :
  _sanitize (lit "Say " ++ [dquote] ++ lit "hello" ++ [dquote] ++ lit " and"
               ++ [nl] ++ lit "then continue") 120
  = lit "Say 'hello' and then continue".
Proof. vm_compute. reflexivity. Qed.

(** *** Sanitization *)

Definition cleaned (text : str) : str :=
  replace dquote squote (replace nl space text).

Lemma cleaned_length text : length (cleaned text) = length text.
Proof. unfold cleaned, replace. now rewrite !length_map. Qed.

Lemma cleaned_no_newline text : ~ In nl (cleaned text).
Proof.
  unfold cleaned, replace. rewrite map_map. intros H.
  apply in_map_iff in H as (c & Hc & _).
  destruct (N.eqb c nl) eqn:E1.
  - vm_compute in Hc. discriminate.
  - destruct (N.eqb c dquote) eqn:E2.
    + vm_compute in Hc. discriminate.
    + apply N.eqb_neq in E1. congruence.
Qed.

Lemma cleaned_no_dquote text : ~ In dquote (cleaned text).
Proof.
  unfold cleaned, replace. rewrite map_map. intros H.
  apply in_map_iff in H as (c & Hc & _).
  destruct (N.eqb c nl) eqn:E1.
  - vm_compute in Hc. discriminate.
  - destruct (N.eqb c dquote) eqn:E2.
    + vm_compute in Hc. discriminate.
    + apply N.eqb_neq in E2. congruence.
Qed.

Lemma sanitize_short text max_len :
  (Z.of_nat (length text) <= max_len)%Z ->
  _sanitize text max_len = cleaned text.
Proof.
  intros H. unfold _sanitize. fold (cleaned text). rewrite cleaned_length.
  destruct (Z.gtb_spec (Z.of_nat (length text)) max_len); [lia | reflexivity].
Qed.

Lemma sanitize_long text max_len :
  (1 <= max_len < Z.of_nat (length text))%Z ->
  _sanitize text max_len
  = firstn (Z.to_nat (max_len - 1)) (cleaned text) ++ lit "..." /\
  Z.of_nat (length (_sanitize text max_len)) = (max_len + 2)%Z.
Proof.
  intros H. unfold _sanitize. fold (cleaned text). rewrite cleaned_length.
  destruct (Z.gtb_spec (Z.of_nat (length text)) max_len); [| lia].
  unfold slice_to. destruct (Z.leb_spec 0 (max_len - 1)); [| lia].
  split; [reflexivity |].
  rewrite length_app, length_firstn, cleaned_length. simpl. lia.
Qed.

Lemma In_firstn {A} (n : nat) (l : list A) x : In x (firstn n l) -> In x l.
Proof.
  intros H. rewrite <- (firstn_skipn n l). apply in_or_app. now left.
Qed.

(** Newlines and double quotes never survive sanitization. *)
Lemma sanitize_clean text max_len :
  ~ In nl (_sanitize text max_len) /\ ~ In dquote (_sanitize text max_len).
Proof.
  assert (Hsub : forall c, In c (_sanitize text max_len) ->
                           In c (cleaned text) \/ c = 46%N).
  { intros c. unfold _sanitize. fold (cleaned text).
    destruct (Z.of_nat (length (cleaned text)) >? max_len)%Z; [| tauto].
    rewrite in_app_iff. intros [Hc | Hc].
    - left. unfold slice_to in Hc.
      destruct (0 <=? max_len - 1)%Z; eapply In_firstn; exact Hc.
    - right. simpl in Hc. intuition. }
  split; intros H; apply Hsub in H as [H | H].
  - now apply cleaned_no_newline in H.
  - discriminate.
  - now apply cleaned_no_dquote in H.
  - discriminate.
Qed.

(** C8 at a text of 121 characters and a limit of 120, and at 61 characters
    and a limit of 60: the label returned has 122 and 62 characters, two more
    than the limit, made of the first 119 (59) characters and three dots. *)
Theorem sanitize_exceeds_max_len :
  length (_sanitize (repeat 97%N 121) 120) = 122 /\
  _sanitize (repeat 97%N 121) 120 = repeat 97%N 119 ++ lit "..." /\
  length (_sanitize (repeat 97%N 61) 60) = 62 /\
  _sanitize (repeat 97%N 61) 60 = repeat 97%N 59 ++ lit "...".
Proof.
  repeat split; vm_compute; reflexivity.
Qed.

(** *** Rendering *)

(** The fields of a task that [Mermaid.render] reads. *)
Definition rendered_fields (t : TaskObject)
  : str * str * str * list str * option ConditionalLogic :=
  (task_id t, task_description t, role_owner t, precedes_tasks t, conditional_logic t).

Definition two_tasks (d1 r1 d2 r2 : str) : list TaskObject :=
  [ mk_task (lit "T1") d1 r1 [lit "T2"] [] None;
    mk_task (lit "T2") d2 r2 [] [] None ].

Lemma rendered_fields_lines t t' :
  rendered_fields t = rendered_fields t' ->
  node_line t = node_line t' /\ edge_lines t = edge_lines t' /\
  is_decision t = is_decision t' /\ task_id t = task_id t'.
Proof.
  unfold rendered_fields, node_line, edge_lines, is_decision.
  intros [= -> -> -> -> ->]. repeat split.
Qed.

Lemma render_lines_fields ts ts' :
  map rendered_fields ts = map rendered_fields ts' ->
  map node_line ts = map node_line ts' /\
  flat_map edge_lines ts = flat_map edge_lines ts' /\
  map task_id (filter is_decision ts) = map task_id (filter is_decision ts').
Proof.
  revert ts'. induction ts as [| t ts IH]; intros [| t' ts']; simpl;
    try discriminate; [repeat split |].
  intros Heq.
  assert (Ht : rendered_fields t = rendered_fields t') by congruence.
  assert (Hts : map rendered_fields ts = map rendered_fields ts') by congruence.
  destruct (rendered_fields_lines t t' Ht) as (Hn & He & Hd & Hi).
  destruct (IH ts' Hts) as (IHn & IHe & IHd).
  rewrite Hn, He, Hd, IHn, IHe. repeat split.
  destruct (is_decision t'); simpl; congruence.
Qed.

(** The occurrences of a character in a text, and the number of lines of a
    text: one more than its newlines. *)
Definition count_char (c : char) (s : str) : nat := length (filter (N.eqb c) s).

Definition physical_lines (s : str) : nat := S (count_char nl s).

(** T1 with a conditional that has a true target only, and T2. *)
Definition branch_tasks (d1 r1 cond d2 r2 : str) : list TaskObject :=
  [ mk_task (lit "T1") d1 r1 [] []
      (Some {| condition := cond; true_path_task_id := lit "T2";
               false_path_task_id := None |});
    mk_task (lit "T2") d2 r2 [] [] None ].

Lemma count_char_app c s1 s2 :
  count_char c (s1 ++ s2) = count_char c s1 + count_char c s2.
Proof.
  unfold count_char. now rewrite filter_app, length_app.
Qed.

Lemma count_char_absent c s : ~ In c s -> count_char c s = 0.
Proof.
  unfold count_char. induction s as [| x s IH]; intros H; [reflexivity |].
  cbn [filter]. destruct (N.eqb_spec c x) as [-> | _].
  - exfalso. apply H. now left.
  - apply IH. intros Hin. apply H. now right.
Qed.

Lemma role_no_newline r :
  ~ In nl r -> ~ In nl match r with [] => lit "role?" | _ :: _ => r end.
Proof.
  destruct r; [| tauto]. intros _ H. simpl in H.
  repeat (destruct H as [H | H]; [discriminate |]). exact H.
Qed.

(** C9, as stated, fails: the diagram of the two tasks has six lines, and it
    is not made of four lines, whatever they are. *)
Lemma render_two_tasks_not_four_lines :
  physical_lines
    (render {| workflow_name := lit "WF";
               tasks := two_tasks (lit "a") (lit "r") (lit "b") (lit "r") |}) = 6 /\
  ~ exists header node1 node2 edge : str,
      ~ In nl header /\ ~ In nl node1 /\ ~ In nl node2 /\ ~ In nl edge /\
      render {| workflow_name := lit "WF";
                tasks := two_tasks (lit "a") (lit "r") (lit "b") (lit "r") |}
      = join [nl] [header; node1; node2; edge].
Proof.
  split; [vm_compute; reflexivity |].
  intros (header & node1 & node2 & edge & H1 & H2 & H3 & H4 & Heq).
  apply (f_equal (count_char nl)) in Heq.
  cbn [join] in Heq. rewrite !count_char_app in Heq.
  rewrite (count_char_absent nl header H1), (count_char_absent nl node1 H2),
    (count_char_absent nl node2 H3), (count_char_absent nl edge H4) in Heq.
  vm_compute in Heq. discriminate.
Qed.

(** C9, amended: the workflow of T1, preceding T2, and T2 constructs, whatever
    the descriptions and roles, and its diagram is the header, the node
    declaration of T1, that of T2 and the edge from T1 to T2, indented by four
    spaces, joined by newlines.  A node declaration holds a newline of its
    own, between the sanitized description and the role, so the diagram has
    six lines when the roles hold no newline.  A task whose conditional has a
    true target and no false target contributes its plain edges and exactly
    one labelled edge; in the diagram of such a T1 and T2 the labelled edge is
    followed by the style block only. *)
Theorem render_scenarios :
  (forall name d1 r1 d2 r2 : str,
      new_JobWorkflowSchema name (two_tasks d1 r1 d2 r2)
      = Ok {| workflow_name := name; tasks := two_tasks d1 r1 d2 r2 |} /\
      render {| workflow_name := name; tasks := two_tasks d1 r1 d2 r2 |} =
        lit "graph TD" ++ [nl]
        ++ lit "    T1([" ++ [dquote] ++ _sanitize d1 120 ++ [nl] ++ lit "<sub>"
        ++ match r1 with [] => lit "role?" | _ :: _ => r1 end
        ++ lit "</sub>" ++ [dquote] ++ lit "])" ++ [nl]
        ++ lit "    T2([" ++ [dquote] ++ _sanitize d2 120 ++ [nl] ++ lit "<sub>"
        ++ match r2 with [] => lit "role?" | _ :: _ => r2 end
        ++ lit "</sub>" ++ [dquote] ++ lit "])" ++ [nl]
        ++ lit "    T1 --> T2" /\
      (~ In nl r1 -> ~ In nl r2 ->
       physical_lines
         (render {| workflow_name := name; tasks := two_tasks d1 r1 d2 r2 |}) = 6)) /\
  (forall (t : TaskObject) (c : ConditionalLogic),
      conditional_logic t = Some c ->
      false_path_task_id c = None ->
      edge_lines t =
        map (fun nxt => lit "    " ++ task_id t ++ lit " --> " ++ nxt)
            (precedes_tasks t) ++
        [lit "    " ++ task_id t ++ lit " -- " ++ [dquote]
           ++ _sanitize (condition c) 60 ++ [dquote] ++ lit " --> "
           ++ true_path_task_id c]) /\
  (forall name d1 r1 cond d2 r2 : str,
      render {| workflow_name := name; tasks := branch_tasks d1 r1 cond d2 r2 |} =
        lit "graph TD" ++ [nl]
        ++ lit "    T1([" ++ [dquote] ++ _sanitize d1 120 ++ [nl] ++ lit "<sub>"
        ++ match r1 with [] => lit "role?" | _ :: _ => r1 end
        ++ lit "</sub>" ++ [dquote] ++ lit "])" ++ [nl]
        ++ lit "    T2([" ++ [dquote] ++ _sanitize d2 120 ++ [nl] ++ lit "<sub>"
        ++ match r2 with [] => lit "role?" | _ :: _ => r2 end
        ++ lit "</sub>" ++ [dquote] ++ lit "])" ++ [nl]
        ++ lit "    T1 -- " ++ [dquote] ++ _sanitize cond 60 ++ [dquote]
        ++ lit " --> T2" ++ [nl]
        ++ lit "    classDef decisionNode fill:#ffe4b5,stroke:#333;" ++ [nl]
        ++ lit "    class T1 decisionNode;").
Proof.
  assert (Htext : forall name d1 r1 d2 r2 : str,
    render {| workflow_name := name; tasks := two_tasks d1 r1 d2 r2 |} =
      lit "graph TD" ++ [nl]
      ++ lit "    T1([" ++ [dquote] ++ _sanitize d1 120 ++ [nl] ++ lit "<sub>"
      ++ match r1 with [] => lit "role?" | _ :: _ => r1 end
      ++ lit "</sub>" ++ [dquote] ++ lit "])" ++ [nl]
      ++ lit "    T2([" ++ [dquote] ++ _sanitize d2 120 ++ [nl] ++ lit "<sub>"
      ++ match r2 with [] => lit "role?" | _ :: _ => r2 end
      ++ lit "</sub>" ++ [dquote] ++ lit "])" ++ [nl]
      ++ lit "    T1 --> T2").
  { intros name d1 r1 d2 r2. unfold render, render_lines, two_tasks. cbn [tasks map].
    unfold node_line, style_lines, edge_lines, plain_edge, indent.
    cbn [task_id task_description role_owner precedes_tasks conditional_logic
         mk_task map flat_map filter is_decision app join].
    repeat (rewrite <- app_assoc || rewrite <- app_comm_cons). reflexivity. }
  split; [| split].
  - intros name d1 r1 d2 r2. split; [| split].
    + rewrite new_JobWorkflowSchema_unfold. reflexivity.
    + apply Htext.
    + intros Hr1 Hr2. rewrite Htext. unfold physical_lines.
      rewrite !count_char_app.
      rewrite (count_char_absent nl (_sanitize d1 120)),
              (count_char_absent nl (_sanitize d2 120))
        by apply sanitize_clean.
      rewrite (count_char_absent nl _ (role_no_newline r1 Hr1)),
              (count_char_absent nl _ (role_no_newline r2 Hr2)).
      reflexivity.
  - intros t c Hc Hf. unfold edge_lines, plain_edge, labelled_edge, indent.
    rewrite Hc, Hf. reflexivity.
  - intros name d1 r1 cond d2 r2. unfold render, render_lines, branch_tasks.
    cbn [tasks map].
    unfold node_line, style_lines, edge_lines, plain_edge, labelled_edge, indent.
    cbn [task_id task_description role_owner precedes_tasks conditional_logic
         mk_task map flat_map filter is_decision app join
         condition true_path_task_id false_path_task_id truthy].
    repeat (rewrite <- app_assoc || rewrite <- app_comm_cons). reflexivity.
Qed.

Example single_branch_one_labelled_edge :
  edge_lines (mk_task (lit "T1") (lit "check") (lit "r") []  []
                (Some {| condition := lit "ok?"; true_path_task_id := lit "T2";
                         false_path_task_id := None |}))
  = [ lit "    T1 -- " ++ [dquote] ++ lit "ok?" ++ [dquote] ++ lit " --> T2" ].
Proof. vm_compute. reflexivity. Qed.

(** C7: rendering is a function of the validated workflow.  Construction
    returns the workflow it was given, so validating and rendering twice gives
    the same diagram; and the diagram is determined by the fields the renderer
    reads, task by task in declaration order. *)
Theorem render_deterministic :
  forall (name : str) (ts : list TaskObject) (wf : JobWorkflowSchema),
    new_JobWorkflowSchema name ts = Ok wf ->
    (forall wf', new_JobWorkflowSchema name ts = Ok wf' -> render wf' = render wf) /\
    (forall wf2,
        map rendered_fields (tasks wf2) = map rendered_fields (tasks wf) ->
        render wf2 = render wf).
Proof.
  intros name ts wf Hwf. split.
  - intros wf' Hwf'. rewrite Hwf in Hwf'. injection Hwf' as <-. reflexivity.
  - intros wf2 Hfields. unfold render, render_lines, style_lines.
    destruct (render_lines_fields _ _ Hfields) as (-> & -> & ->). reflexivity.
Qed.

Lemma render_deterministic_witness :
  render {| workflow_name := lit "other";
            tasks := map (fun t => set_dependencies t [lit "T1"])
                         (two_tasks (lit "a") (lit "r") (lit "b") (lit "r")) |}
  = render {| workflow_name := lit "WF";
              tasks := two_tasks (lit "a") (lit "r") (lit "b") (lit "r") |}.
Proof.
  destruct (render_deterministic (lit "WF")
              (two_tasks (lit "a") (lit "r") (lit "b") (lit "r"))
              {| workflow_name := lit "WF";
                 tasks := two_tasks (lit "a") (lit "r") (lit "b") (lit "r") |})
    as [_ H].
  - vm_compute. reflexivity.
  - apply H. reflexivity.
Defined.

(** ** extractor_agent.py: the rule-based fallback *)

(** The characters at which [str.splitlines] breaks a line. *)
Definition is_linebreak (c : char) : bool :=
  existsb (N.eqb c) [10; 11; 12; 13; 28; 29; 30; 133; 8232; 8233]%N.

(** The characters [str.strip] removes. *)
Definition is_space (c : char) : bool :=
  ((9 <=? c) && (c <=? 13) || (28 <=? c) && (c <=? 32)
   || (8192 <=? c) && (c <=? 8202)
   || existsb (N.eqb c) [133; 160; 5760; 8232; 8233; 8239; 8287; 12288])%N.

(** [s.splitlines()]; [cur] holds the line being read, last character first.
    A carriage return followed by a line feed is one break, and no empty line
    follows a final break. *)
Fixpoint splitlines_from (cur s : str) : list str :=
  match s with
  | [] => match cur with [] => [] | _ :: _ => [rev cur] end
  | c :: rest =>
      if N.eqb c 13 then
        match rest with
        | c' :: rest' =>
            if N.eqb c' 10 then rev cur :: splitlines_from [] rest'
            else rev cur :: splitlines_from [] rest
        | [] => rev cur :: splitlines_from [] rest
        end
      else if is_linebreak c then rev cur :: splitlines_from [] rest
      else splitlines_from (c :: cur) rest
  end.

Definition splitlines (s : str) : list str := splitlines_from [] s.

Fixpoint lstrip (s : str) : str :=
  match s with
  | [] => []
  | c :: rest => if is_space c then lstrip rest else s
  end.

Definition strip (s : str) : str := rev (lstrip (rev (lstrip s))).

(** [s.split(":", 1)] for an [s] that holds a colon: what is before the first
    colon and what is after it. *)
Fixpoint split_colon (s : str) : str * str :=
  match s with
  | [] => ([], [])
  | c :: rest =>
      if N.eqb c colon then ([], rest)
      else (c :: fst (split_colon rest), snd (split_colon rest))
  end.

(** [a or b] on strings. *)
Definition or_else (a b : str) : str :=
  match a with [] => b | _ :: _ => a end.

Definition nonempty (s : str) : bool :=
  match s with [] => false | _ :: _ => true end.

(** The task id [f"T{idx}"]. *)
Definition T (idx : nat) : str := lit "T" ++ str_of_nat idx.

(** Role and description of one transcript line. *)
Definition role_and_description (line : str) : str * str :=
  if char_in colon line then
    let speaker := fst (split_colon line) in
    let content := snd (split_colon line) in
    (or_else (strip speaker) (lit "Unknown"),
     or_else (strip content) (lit "Task description unavailable"))
  else (lit "Unknown", line).

(** The task built for line number [idx] out of [n] lines. *)
Definition fallback_task (n idx : nat) (line : str) : TaskObject :=
  mk_task (T idx)
    (snd (role_and_description line)) (fst (role_and_description line))
    (if idx <? n then [T (idx + 1)] else []) [] None.

Definition fallback_tasks (lines : list str) : list TaskObject :=
  map (fun il => fallback_task (length lines) (fst il) (snd il))
      (combine (seq 1 (length lines)) lines).

Definition fallback_lines (transcript : str) : list str :=
  filter nonempty (map strip (splitlines transcript)).

(** [ExtractorAgent._fallback]; [error] is the name of the exception's type,
    when there is an exception. *)
Definition _fallback (transcript : str) (error : option str)
  : result JobWorkflowSchema :=
  let lines := fallback_lines transcript in
  let tasks :=
    match fallback_tasks lines with
    | [] => [mk_task (lit "T1") (lit "No actionable steps detected")
               (lit "Unknown") [] [] None]
    | t :: ts => t :: ts
    end in
  let name_suffix :=
    match error with
    | Some e => lit " (fallback: " ++ e ++ lit ")"
    | None => []
    end in
  new_JobWorkflowSchema (lit "Fallback Workflow" ++ name_suffix) tasks.

Example splitlines_examples :
  splitlines (lit "ab" ++ [13; 10]%N ++ lit "c" ++ [10; 10]%N ++ lit "d" ++ [10]%N)
  = [lit "ab"; lit "c"; []; lit "d"] /\
  splitlines [] = [] /\
  strip (lit "  a b " ++ [9]%N) = lit "a b".
Proof. vm_compute. repeat split. Qed.

Example fallback_example :
  _fallback (lit "Ann: open the ticket" ++ [10]%N ++ lit "   " ++ [10]%N
               ++ lit "close it") (Some (lit "LLMRouterError"))
  = Ok {| workflow_name := lit "Fallback Workflow (fallback: LLMRouterError)";
          tasks := [ mk_task (lit "T1") (lit "open the ticket") (lit "Ann")
                       [lit "T2"] [] None;
                     mk_task (lit "T2") (lit "close it") (lit "Unknown")
                       [] [] None ] |}.
Proof. vm_compute. reflexivity. Qed.

(** *** The fallback is a linear chain *)

(** Task number [i] of a chain of [n] tasks: its id is [T i], it precedes
    [T (i + 1)] unless it is the last, and it has no dependency and no
    conditional. *)
Definition chain_link (n i : nat) (t : TaskObject) : Prop :=
  task_id t = T i /\
  precedes_tasks t = (if i <? n then [T (i + 1)] else []) /\
  dependencies t = [] /\
  conditional_logic t = None.

Definition linear_chain (ts : list TaskObject) : Prop :=
  ts <> [] /\ Forall2 (chain_link (length ts)) (seq 1 (length ts)) ts.

Definition branch_targets_exist (ts : list TaskObject) : Prop :=
  forall t c,
    In t ts -> conditional_logic t = Some c ->
    In (true_path_task_id c) (ids_of ts) /\
    (forall f, false_path_task_id c = Some f -> In f (ids_of ts)).

Lemma str_of_uint_inj d d' : str_of_uint d = str_of_uint d' -> d = d'.
Proof.
  revert d'. induction d; destruct d'; simpl; intros H;
    try discriminate; try reflexivity;
    injection H as H; f_equal; auto.
Qed.

Lemma T_inj i j : T i = T j -> i = j.
Proof.
  unfold T, str_of_nat. intros H. apply app_inv_head in H.
  now apply DecimalNat.Unsigned.to_uint_inj, str_of_uint_inj.
Qed.

Lemma Forall2_In_r {A B} (R : A -> B -> Prop) l1 l2 y :
  Forall2 R l1 l2 -> In y l2 -> exists x, In x l1 /\ R x y.
Proof.
  induction 1 as [| a b l1 l2 Hab _ IH]; intros Hy; [destruct Hy |].
  destruct Hy as [<- | Hy].
  - exists a. split; [now left | assumption].
  - destruct (IH Hy) as (x & Hx & Hxy). exists x. split; [now right | assumption].
Qed.

Lemma Forall2_In_l {A B} (R : A -> B -> Prop) l1 l2 x :
  Forall2 R l1 l2 -> In x l1 -> exists y, In y l2 /\ R x y.
Proof.
  induction 1 as [| a b l1 l2 Hab _ IH]; intros Hx; [destruct Hx |].
  destruct Hx as [<- | Hx].
  - exists b. split; [now left | assumption].
  - destruct (IH Hx) as (y & Hy & Hxy). exists y. split; [now right | assumption].
Qed.

Lemma NoDup_map_inj {A B} (f : A -> B) (l : list A) :
  (forall x y, f x = f y -> x = y) -> NoDup l -> NoDup (map f l).
Proof.
  intros Hinj. induction 1 as [| x l Hx _ IH]; simpl; constructor; [| assumption].
  intros Hin. apply in_map_iff in Hin as (y & Hy & Hyl).
  apply Hinj in Hy. now subst.
Qed.

Lemma chain_ids n idxs ts :
  Forall2 (chain_link n) idxs ts -> ids_of ts = map T idxs.
Proof.
  induction 1 as [| i t idxs ts (Hid & _) _ IH]; simpl; [reflexivity |].
  now rewrite Hid, IH.
Qed.

Lemma fallback_tasks_chain n lines :
  forall start,
    Forall2 (chain_link n) (seq start (length lines))
      (map (fun il => fallback_task n (fst il) (snd il))
           (combine (seq start (length lines)) lines)).
Proof.
  induction lines as [| line lines IH]; intros start; simpl; constructor.
  - unfold chain_link. simpl. repeat split.
  - apply IH.
Qed.

Lemma fallback_tasks_length lines : length (fallback_tasks lines) = length lines.
Proof.
  unfold fallback_tasks.
  rewrite length_map, length_combine, length_seq. apply Nat.min_id.
Qed.

Lemma fallback_tasks_linear lines :
  lines <> [] -> linear_chain (fallback_tasks lines).
Proof.
  intros Hne. split.
  - intros Hnil. apply (f_equal (@length _)) in Hnil.
    rewrite fallback_tasks_length in Hnil. destruct lines; [congruence | discriminate].
  - rewrite fallback_tasks_length. apply fallback_tasks_chain.
Qed.

Section Chains.

Variable ts : list TaskObject.
Hypothesis Hchain : linear_chain ts.

Lemma chain_task_link t :
  In t ts -> exists i, 1 <= i <= length ts /\ chain_link (length ts) i t.
Proof.
  intros Ht. destruct Hchain as [_ HF].
  destruct (Forall2_In_r _ _ _ t HF Ht) as (i & Hi & Hlink).
  apply in_seq in Hi. exists i. split; [lia | assumption].
Qed.

Lemma chain_id_In i : 1 <= i <= length ts -> In (T i) (ids_of ts).
Proof.
  intros Hi. destruct Hchain as [_ HF].
  rewrite (chain_ids _ _ _ HF). apply in_map, in_seq. lia.
Qed.

Lemma chain_edge u v :
  In (u, v) (workflow_edges ts) ->
  exists i, 1 <= i < length ts /\ u = T i /\ v = T (i + 1).
Proof.
  intros H. apply workflow_edges_In in H as (t & Ht & -> & Hv).
  destruct (chain_task_link t Ht) as (i & Hi & Hid & Hp & _ & Hc).
  unfold task_targets in Hv. rewrite Hp, Hc, app_nil_r in Hv.
  destruct (Nat.ltb_spec i (length ts)) as [Hlt | Hge]; [| destruct Hv].
  destruct Hv as [<- | []]. exists i. repeat split; auto; lia.
Qed.

Lemma chain_walk u v :
  walk (workflow_edges ts) u v -> exists i j, u = T i /\ v = T j /\ i < j.
Proof.
  induction 1 as [u v H | u w v H _ IH].
  - apply chain_edge in H as (i & Hi & -> & ->). exists i, (i + 1). repeat split. lia.
  - apply chain_edge in H as (i & Hi & -> & ->).
    destruct IH as (i' & j & Hi' & -> & Hlt). apply T_inj in Hi'. subst i'.
    exists i, j. repeat split. lia.
Qed.

Lemma chain_unique_ids : NoDup (ids_of ts).
Proof.
  destruct Hchain as [_ HF]. rewrite (chain_ids _ _ _ HF).
  apply NoDup_map_inj; [intros i j; apply T_inj | apply seq_NoDup].
Qed.

Lemma chain_refs :
  deps_exist ts /\ succs_exist ts /\ branch_targets_exist ts.
Proof.
  split; [| split].
  - intros t d Ht Hd. destruct (chain_task_link t Ht) as (i & _ & _ & _ & Hdeps & _).
    rewrite Hdeps in Hd. destruct Hd.
  - intros t n Ht Hn. destruct (chain_task_link t Ht) as (i & Hi & _ & Hp & _).
    rewrite Hp in Hn.
    destruct (Nat.ltb_spec i (length ts)) as [Hlt | Hge]; [| destruct Hn].
    destruct Hn as [<- | []]. apply chain_id_In. lia.
  - intros t c Ht Hc. destruct (chain_task_link t Ht) as (i & _ & _ & _ & _ & Hnone).
    congruence.
Qed.

Lemma chain_acyclic : acyclic (workflow_edges ts).
Proof.
  intros v Hv. apply chain_walk in Hv as (i & j & -> & Hj & Hlt).
  apply T_inj in Hj. lia.
Qed.

Lemma chain_has_root : has_root ts.
Proof.
  assert (Hlen : 1 <= length ts).
  { destruct Hchain as [Hne _]. destruct ts; [congruence | simpl; lia]. }
  exists (T 1). split; [apply chain_id_In; lia |].
  intros u Hu. apply chain_edge in Hu as (i & Hi & _ & Hv).
  apply T_inj in Hv. lia.
Qed.

End Chains.

(** The task list [_fallback] hands to the constructor. *)
Definition fallback_task_list (transcript : str) : list TaskObject :=
  match fallback_tasks (fallback_lines transcript) with
  | [] => [mk_task (lit "T1") (lit "No actionable steps detected")
             (lit "Unknown") [] [] None]
  | t :: ts => t :: ts
  end.

Lemma fallback_task_list_linear transcript :
  linear_chain (fallback_task_list transcript) /\
  length (fallback_task_list transcript)
  = Nat.max 1 (length (fallback_lines transcript)).
Proof.
  unfold fallback_task_list.
  destruct (fallback_tasks (fallback_lines transcript)) as [| t ts] eqn:Hts.
  - split.
    + split; [discriminate |]. simpl. repeat constructor.
    + apply (f_equal (@length _)) in Hts. rewrite fallback_tasks_length in Hts.
      simpl in Hts. rewrite Hts. reflexivity.
  - assert (Hne : fallback_lines transcript <> []).
    { intros Hnil. rewrite Hnil in Hts. discriminate. }
    rewrite <- Hts. split; [now apply fallback_tasks_linear |].
    rewrite fallback_tasks_length.
    destruct (fallback_lines transcript); [congruence | simpl; lia].
Qed.

(** C6: for every transcript, and whatever the exception that led to it, the
    rule-based fallback constructs a workflow.  Its tasks are T1 ... Tn in a
    single chain, each preceding the next, n being the number of non-blank
    lines, or one task when there is none; its ids are unique, every reference
    of every field names a task, its graph has no cycle and has a root. *)
Theorem fallback_is_valid_chain :
  forall (transcript : str) (error : option str),
    exists wf,
      _fallback transcript error = Ok wf /\
      linear_chain (tasks wf) /\
      length (tasks wf) = Nat.max 1 (length (fallback_lines transcript)) /\
      NoDup (ids_of (tasks wf)) /\
      (deps_exist (tasks wf) /\ succs_exist (tasks wf) /\
       branch_targets_exist (tasks wf)) /\
      acyclic (workflow_edges (tasks wf)) /\
      has_root (tasks wf).
Proof.
  intros transcript error.
  destruct (fallback_task_list_linear transcript) as [Hchain Hlen].
  pose proof (chain_refs _ Hchain) as (Hd & Hs & Hb).
  pose proof (chain_acyclic _ Hchain) as Hac.
  pose proof (chain_has_root _ Hchain) as Hroot.
  eexists. split.
  - unfold _fallback. fold (fallback_task_list transcript).
    apply new_JobWorkflowSchema_ok.
    split; [reflexivity |]. repeat split; auto using has_root_nonempty.
  - simpl.
    split; [exact Hchain |]. split; [exact Hlen |].
    split; [now apply chain_unique_ids |].
    split; [split; [exact Hd | split; [exact Hs | exact Hb]] |].
    split; [exact Hac | exact Hroot].
Qed.

(** ** orchestrator.py *)

(** [ValidatorAgent.run]: the workflow is constructed again from its dump. *)
Definition validator_run (wf : JobWorkflowSchema) : result unit :=
  new_JobWorkflowSchema (workflow_name wf) (tasks wf) ;;; Ok tt.

(** [ExtractorAgent.run].  [response] is the object parsed from the answer of
    the model, a workflow name and a task list, or the exception of the router
    or of the parser, given by the name of its type; a task list that fails
    validation raises pydantic's [ValidationError].  Any exception leads to
    the fallback. *)
Definition extractor_run (transcript : str)
  (response : result (str * list TaskObject)) : result JobWorkflowSchema :=
  match response with
  | Raise exc => _fallback transcript (Some exc)
  | Ok obj =>
      match new_JobWorkflowSchema (fst obj) (snd obj) with
      | Ok workflow => Ok workflow
      | Raise _ => _fallback transcript (Some (lit "ValidationError"))
      end
  end.

(** What the variable [workflow] of [process_transcript] may refer to once
    the enricher has run: a workflow, or an object of some other type, given
    by the name of its type. *)
Inductive pyobject :=
| Workflow (wf : JobWorkflowSchema)
| NoWorkflow (type_name : str).

(** How a call [enricher.enrich(workflow)] ends: with an exception, by
    returning the object it was given, or by returning another object. *)
Inductive enrich_end :=
| EnrichRaises
| ReturnsArgument
| ReturnsObject (o : pyobject).

(** A call of [enrich]: the workflow object it was given, as the call leaves
    it ([enrich] may change it in place, and pydantic does not validate an
    assignment), and how the call ends. *)
Record enrich_call := {
  argument_after : JobWorkflowSchema;
  call_end : enrich_end
}.

(** The [AttributeError] for reading [attribute] of an object of a type that
    has none. *)
Definition msg_no_attribute (type_name attribute : str) : str :=
  lit "'" ++ type_name ++ lit "' object has no attribute '" ++ attribute ++ lit "'".

(** [ValidatorAgent.run] on whatever [workflow] refers to: an object that is
    no workflow has no [model_dump]. *)
Definition validator_run_object (o : pyobject) : result unit :=
  match o with
  | Workflow wf => validator_run wf
  | NoWorkflow type_name => Raise (msg_no_attribute type_name (lit "model_dump"))
  end.

Section Orchestrator.

(** The enricher handed to the orchestrator, if any. *)
Variable enricher : option (JobWorkflowSchema -> enrich_call).

(** Lines 82-87: what [workflow] refers to afterwards.  The assignment and
    the second validation share one [try], whose handler ignores the
    exception: when [enrich] raises, [workflow] still names the object it was
    given, as the call left it; when [enrich] returns, [workflow] names what
    it returned, whether the validation then passes or raises. *)
Definition enrich_step (workflow : JobWorkflowSchema) : pyobject :=
  match enricher with
  | None => Workflow workflow
  | Some enrich =>
      let call := enrich workflow in
      match call_end call with
      | EnrichRaises => Workflow (argument_after call)
      | ReturnsArgument =>
          match validator_run_object (Workflow (argument_after call)) with
          | Ok _ => Workflow (argument_after call)
          | Raise _ => Workflow (argument_after call)
          end
      | ReturnsObject returned =>
          match validator_run_object returned with
          | Ok _ => returned
          | Raise _ => returned
          end
      end
  end.

(** [Orchestrator.process_transcript], up to rendering: the workflow that goes
    on to the later stages, and its diagram.  [Mermaid.render] reads
    [workflow.tasks], which raises when [workflow] is no workflow. *)
Definition process_transcript (transcript : str)
  (response : result (str * list TaskObject)) : result (JobWorkflowSchema * str) :=
  workflow <- extractor_run transcript response ;;
  validator_run workflow ;;;
  match enrich_step workflow with
  | Workflow workflow =>
      let mermaid := render workflow in
      Ok (workflow, mermaid)
  | NoWorkflow type_name => Raise (msg_no_attribute type_name (lit "tasks"))
  end.

End Orchestrator.

(** An enricher that makes every task its own successor, in place, and
    returns the workflow. *)
Definition add_self_loop (t : TaskObject) : TaskObject :=
  {| task_id := task_id t; task_description := task_description t;
     role_owner := role_owner t;
     precedes_tasks := precedes_tasks t ++ [task_id t];
     dependencies := dependencies t; conditional_logic := conditional_logic t;
     required_knowledge := required_knowledge t;
     required_skill_tags := required_skill_tags t |}.

Definition looping_enricher (workflow : JobWorkflowSchema) : enrich_call :=
  {| argument_after :=
       {| workflow_name := workflow_name workflow;
          tasks := map add_self_loop (tasks workflow) |};
     call_end := ReturnsArgument |}.

Lemma validator_run_ok wf :
  validator_run wf = Ok tt <->
  new_JobWorkflowSchema (workflow_name wf) (tasks wf) = Ok wf.
Proof.
  unfold validator_run.
  destruct (new_JobWorkflowSchema (workflow_name wf) (tasks wf)) as [wf' | m] eqn:H;
    simpl.
  - apply new_JobWorkflowSchema_ok in H as (-> & _). destruct wf. simpl. tauto.
  - split; discriminate.
Qed.

(** Without an enricher, or when [enrich] raises and has left the workflow as
    it was, the workflow that goes on is the one that was validated. *)
Lemma enrichment_failure_keeps_workflow enricher transcript response wf mermaid :
  process_transcript enricher transcript response = Ok (wf, mermaid) ->
  (enricher = None \/
   exists enrich, enricher = Some enrich /\
     forall w, enrich w = {| argument_after := w; call_end := EnrichRaises |}) ->
  validator_run wf = Ok tt /\ mermaid = render wf.
Proof.
  unfold process_transcript. intros H Henr.
  destruct (extractor_run transcript response) as [w | m]; simpl in H;
    [| discriminate].
  destruct (validator_run w) as [[] | m] eqn:Hv; simpl in H; [| discriminate].
  assert (Hstep : enrich_step enricher w = Workflow w).
  { unfold enrich_step. destruct Henr as [-> | (enrich & -> & Hr)]; [reflexivity |].
    rewrite (Hr w). reflexivity. }
  rewrite Hstep in H. injection H as <- <-. auto.
Qed.

(** C5 at an enricher that adds an edge: the enriched workflow fails the
    second validation with "Workflow contains cycles", the failure is
    ignored, and the enriched workflow is the one rendered and passed on. *)
Theorem invalid_enriched_workflow_is_rendered :
  exists wf mermaid,
    process_transcript (Some looping_enricher) (lit "Ann: do it")
      (Ok (lit "WF", [task_A])) = Ok (wf, mermaid) /\
    validator_run wf = Raise msg_cycles /\
    mermaid = render wf /\
    tasks wf = [add_self_loop task_A].
Proof.
  eexists. eexists. split; [vm_compute; reflexivity |].
  split; [vm_compute; reflexivity |]. split; vm_compute; reflexivity.
Qed.

(** * Further properties of the modelled code *)

From Stdlib Require Import Permutation.

(** ** The constructor of JobWorkflowSchema, outcome by outcome *)

(** When the generation test fails, a cycle can be exhibited. *)
Lemma generations_false_cyclic E fuel :
  forall rem, length rem <= fuel -> generations fuel E rem = false -> cyclic E.
Proof.
  induction fuel as [| fuel IH]; intros rem Hlen Hgen; simpl in Hgen.
  - destruct rem; [discriminate | simpl in Hlen; lia].
  - destruct (filter (fun v => negb (has_pred_in E rem v)) rem) as [| z zs] eqn:Hz.
    + destruct rem as [| r rs]; [discriminate |].
      apply (closed_under_pred_cyclic E (length (r :: rs)) (r :: rs));
        [lia | discriminate |].
      intros v Hv. destruct (has_pred_in E (r :: rs) v) eqn:Hp.
      * apply has_pred_in_spec in Hp as (u & Huv & Hu).
        exists u. split; [assumption | now apply walk_edge].
      * assert (In v []) as [].
        { rewrite <- Hz. apply filter_In. now rewrite Hp. }
    + apply (IH (filter (has_pred_in E rem) rem)); [| assumption].
      pose proof (filter_split_length (has_pred_in E rem) rem) as Hsplit.
      rewrite Hz in Hsplit. simpl in Hsplit. lia.
Qed.

Lemma not_dag_cyclic ts :
  is_directed_acyclic_graph (build_graph ts) = false -> cyclic (workflow_edges ts).
Proof.
  intros H. unfold is_directed_acyclic_graph in H.
  apply generations_false_cyclic in H; [| lia].
  destruct H as (v & Hv). exists v. revert Hv.
  apply walk_incl. intros e. apply build_graph_edges.
Qed.

Lemma validate_refs_raise_task ts m :
  _validate_refs ts = Raise m ->
  exists t, In t ts /\
    ((exists d, In d (dependencies t) /\ ~ In d (ids_of ts) /\ m = msg_dependency d) \/
     (exists n, In n (precedes_tasks t) /\ ~ In n (ids_of ts) /\ m = msg_successor n)).
Proof.
  unfold _validate_refs.
  destruct (for_each_cases ts (check_task_refs (ids_of ts)))
    as [Hok | (pre & t & post & m' & Heq & _ & Ht & Hr)]; rewrite ?Hok, ?Hr; simpl;
    [discriminate |].
  intros [= <-]. exists t. split.
  - rewrite Heq. apply in_or_app. right. now left.
  - now apply check_task_refs_raise.
Qed.

(** X1: construction of a workflow ends in one of five ways: it returns
    the workflow it was given, all references of [depends_on] and [precedes]
    naming tasks, the graph being acyclic and the task list non-empty; or it
    raises for a dependency or for a successor that names no task, for a
    cycle, or for the empty task list. *)
Theorem constructor_outcomes :
  forall (name : str) (ts : list TaskObject),
    (new_JobWorkflowSchema name ts = Ok {| workflow_name := name; tasks := ts |} /\
     deps_exist ts /\ succs_exist ts /\ acyclic (workflow_edges ts) /\ ts <> [])
    \/ (exists t d, In t ts /\ In d (dependencies t) /\ ~ In d (ids_of ts) /\
          new_JobWorkflowSchema name ts = Raise (msg_dependency d))
    \/ (exists t n, In t ts /\ In n (precedes_tasks t) /\ ~ In n (ids_of ts) /\
          new_JobWorkflowSchema name ts = Raise (msg_successor n))
    \/ (deps_exist ts /\ succs_exist ts /\ cyclic (workflow_edges ts) /\
          new_JobWorkflowSchema name ts = Raise msg_cycles)
    \/ (ts = [] /\ new_JobWorkflowSchema name ts = Raise msg_no_root).
Proof.
  intros name ts. rewrite new_JobWorkflowSchema_unfold.
  destruct (validate_refs_cases ts) as [Hr | (m & Hr)]; rewrite Hr.
  - apply validate_refs_ok in Hr as [Hd Hs].
    destruct (is_directed_acyclic_graph (build_graph ts)) eqn:Hdag.
    + destruct ts as [| t ts'].
      * right. right. right. right. split; reflexivity.
      * left. apply build_graph_acyclic in Hdag.
        repeat split; auto. discriminate.
    + right. right. right. left. apply not_dag_cyclic in Hdag. auto.
  - destruct (validate_refs_raise_task ts m Hr)
      as (t & Ht & [(d & Hd & Hnot & ->) | (n & Hn & Hnot & ->)]).
    + right. left. exists t, d. auto.
    + right. right. left. exists t, n. auto.
Qed.

(** ** What validation depends on *)

Lemma ids_of_perm ts ts' x :
  Permutation ts ts' -> In x (ids_of ts) <-> In x (ids_of ts').
Proof.
  intros Hp. unfold ids_of. split; apply Permutation_in;
    [| apply Permutation_sym]; now apply Permutation_map.
Qed.

Lemma workflow_edges_perm ts ts' e :
  Permutation ts ts' -> In e (workflow_edges ts) <-> In e (workflow_edges ts').
Proof.
  intros Hp. destruct e as [u v]. rewrite !workflow_edges_In.
  split; intros (t & Ht & H); exists t; (split; [| exact H]).
  - now apply (Permutation_in t Hp).
  - now apply (Permutation_in t (Permutation_sym Hp)).
Qed.

Lemma valid_perm ts ts' :
  Permutation ts ts' ->
  deps_exist ts /\ succs_exist ts /\ acyclic (workflow_edges ts) /\ ts <> [] ->
  deps_exist ts' /\ succs_exist ts' /\ acyclic (workflow_edges ts') /\ ts' <> [].
Proof.
  intros Hp (Hd & Hs & Hac & Hne).
  assert (Hin : forall t, In t ts' -> In t ts).
  { intros t. apply Permutation_in. now apply Permutation_sym. }
  split; [| split; [| split]].
  - intros t d Ht Hdep. apply (ids_of_perm ts ts' d Hp). eauto.
  - intros t n Ht Hn. apply (ids_of_perm ts ts' n Hp). eauto.
  - intros v Hv. apply (Hac v). revert Hv. apply walk_incl.
    intros e. now apply workflow_edges_perm.
  - intros ->. apply Permutation_sym, Permutation_nil in Hp. contradiction.
Qed.

(** X2: whether a task list constructs does not depend on the order of its tasks
    (the exception raised for a list that does not may). *)
Theorem construction_order_independent :
  forall (name : str) (ts ts' : list TaskObject),
    Permutation ts ts' ->
    (new_JobWorkflowSchema name ts = Ok {| workflow_name := name; tasks := ts |} <->
     new_JobWorkflowSchema name ts' = Ok {| workflow_name := name; tasks := ts' |}).
Proof.
  intros name ts ts' Hp. rewrite !new_JobWorkflowSchema_ok. split.
  - intros (_ & H). split; [reflexivity |]. now apply (valid_perm ts ts').
  - intros (_ & H). split; [reflexivity |].
    apply (valid_perm ts' ts); [now apply Permutation_sym | assumption].
Qed.

Lemma construction_order_independent_witness :
  new_JobWorkflowSchema (lit "W")
    [ mk_task (lit "T2") (lit "b") (lit "r") [] [] None;
      mk_task (lit "T1") (lit "a") (lit "r") [lit "T2"] [] None ]
  = Ok {| workflow_name := lit "W";
          tasks := [ mk_task (lit "T2") (lit "b") (lit "r") [] [] None;
                     mk_task (lit "T1") (lit "a") (lit "r") [lit "T2"] [] None ] |}.
Proof.
  apply (construction_order_independent (lit "W")
           (two_tasks (lit "a") (lit "r") (lit "b") (lit "r"))).
  - apply perm_swap.
  - vm_compute. reflexivity.
Defined.

(** The fields of a task that the validators read. *)
Definition validated_fields (t : TaskObject)
  : str * list str * list str * list str :=
  (task_id t, dependencies t, precedes_tasks t, task_targets t).

Lemma validated_fields_refs ids ts ts' :
  map validated_fields ts = map validated_fields ts' ->
  for_each ts (check_task_refs ids) = for_each ts' (check_task_refs ids).
Proof.
  revert ts'. induction ts as [| t ts IH]; intros [| t' ts']; simpl;
    try discriminate; [reflexivity |].
  intros Heq.
  assert (Ht : validated_fields t = validated_fields t') by congruence.
  assert (Hts : map validated_fields ts = map validated_fields ts') by congruence.
  unfold validated_fields in Ht. injection Ht as _ Hd Hp _.
  unfold check_task_refs at 1 3. rewrite Hd, Hp, (IH ts' Hts). reflexivity.
Qed.

Lemma validated_fields_ids ts ts' :
  map validated_fields ts = map validated_fields ts' -> ids_of ts = ids_of ts'.
Proof.
  intros H. apply (f_equal (map (fun f => fst (fst (fst f))))) in H.
  rewrite !map_map in H. exact H.
Qed.

Lemma validated_fields_graph ts ts' :
  map validated_fields ts = map validated_fields ts' ->
  build_graph ts = build_graph ts'.
Proof.
  intros H. unfold build_graph.
  assert (Hnodes : forall G,
    fold_left (fun G t => add_node G (task_id t)) ts G
    = fold_left (fun G t => add_node G (task_id t)) ts' G).
  { revert ts' H. induction ts as [| t ts IH]; intros [| t' ts'] H G; simpl;
      try discriminate; [reflexivity |].
    assert (Ht : validated_fields t = validated_fields t') by (simpl in H; congruence).
    assert (Hts : map validated_fields ts = map validated_fields ts')
      by (simpl in H; congruence).
    unfold validated_fields in Ht. injection Ht as Hid _ _ _.
    rewrite Hid. now apply IH. }
  rewrite Hnodes.
  generalize (fold_left (fun G t => add_node G (task_id t)) ts' empty_graph).
  clear Hnodes. revert ts' H.
  induction ts as [| t ts IH]; intros [| t' ts'] H G; simpl;
    try discriminate; [reflexivity |].
  assert (Ht : validated_fields t = validated_fields t') by (simpl in H; congruence).
  assert (Hts : map validated_fields ts = map validated_fields ts')
    by (simpl in H; congruence).
  unfold validated_fields in Ht. injection Ht as Hid _ _ Htg.
  unfold add_task_edges at 2 4. rewrite Hid, Htg. now apply IH.
Qed.

(** X3: validation reads the id, the dependencies, the successors and the
    conditional targets of each task, and nothing else: two task lists that
    agree on these, task by task, have the same outcome, success or the same
    exception, whatever their names, descriptions, roles and annotations. *)
Theorem validation_reads_structure_only :
  forall (name name' : str) (ts ts' : list TaskObject),
    map validated_fields ts = map validated_fields ts' ->
    match new_JobWorkflowSchema name ts with
    | Ok _ =>
        new_JobWorkflowSchema name' ts'
        = Ok {| workflow_name := name'; tasks := ts' |}
    | Raise m => new_JobWorkflowSchema name' ts' = Raise m
    end.
Proof.
  intros name name' ts ts' H. rewrite !new_JobWorkflowSchema_unfold.
  unfold _validate_refs.
  rewrite <- (validated_fields_ids ts ts' H),
          <- (validated_fields_refs (ids_of ts) ts ts' H),
          <- (validated_fields_graph ts ts' H).
  destruct (for_each ts (check_task_refs (ids_of ts))) as [[] | m]; simpl;
    [| reflexivity].
  destruct (is_directed_acyclic_graph (build_graph ts)); [| reflexivity].
  destruct ts as [| t ts0], ts' as [| t' ts0']; try discriminate; reflexivity.
Qed.

Lemma validation_reads_structure_only_witness :
  new_JobWorkflowSchema (lit "other")
    (two_tasks (lit "x") (lit "y") (lit "z") (lit "w"))
  = Ok {| workflow_name := lit "other";
          tasks := two_tasks (lit "x") (lit "y") (lit "z") (lit "w") |}.
Proof.
  pose proof (validation_reads_structure_only (lit "W") (lit "other")
                (two_tasks (lit "a") (lit "r") (lit "b") (lit "r"))
                (two_tasks (lit "x") (lit "y") (lit "z") (lit "w")) eq_refl) as H.
  exact H.
Defined.

(** X4: tasks without successors, dependencies and conditionals: any non-empty
    list of them constructs, whatever their ids. *)
Theorem isolated_tasks_construct :
  forall (name : str) (ts : list TaskObject),
    ts <> [] ->
    (forall t, In t ts ->
       precedes_tasks t = [] /\ dependencies t = [] /\ conditional_logic t = None) ->
    new_JobWorkflowSchema name ts = Ok {| workflow_name := name; tasks := ts |}.
Proof.
  intros name ts Hne Hiso. apply new_JobWorkflowSchema_ok.
  split; [reflexivity |].
  assert (Hnoedge : forall e, ~ In e (workflow_edges ts)).
  { intros [u v] He. apply workflow_edges_In in He as (t & Ht & _ & Hv).
    destruct (Hiso t Ht) as (Hp & _ & Hc).
    unfold task_targets in Hv. rewrite Hp, Hc in Hv. exact Hv. }
  split; [| split; [| split]].
  - intros t d Ht Hd. destruct (Hiso t Ht) as (_ & Hdeps & _).
    rewrite Hdeps in Hd. destruct Hd.
  - intros t n Ht Hn. destruct (Hiso t Ht) as (Hp & _).
    rewrite Hp in Hn. destruct Hn.
  - intros v Hv. destruct Hv as [u v Huv | u w v Huw _]; eapply Hnoedge; eauto.
  - assumption.
Qed.

Lemma isolated_tasks_construct_witness :
  new_JobWorkflowSchema (lit "W") [task_A; task_A; task_A]
  = Ok {| workflow_name := lit "W"; tasks := [task_A; task_A; task_A] |}.
Proof.
  apply (isolated_tasks_construct (lit "W") [task_A; task_A; task_A]).
  - discriminate.
  - intros t [<- | [<- | [<- | []]]]; repeat split.
Defined.

Lemma validated_fields_new name name' ts ts' :
  map validated_fields ts = map validated_fields ts' ->
  is_ok (new_JobWorkflowSchema name' ts') = is_ok (new_JobWorkflowSchema name ts).
Proof.
  intros H. rewrite !new_JobWorkflowSchema_unfold. unfold _validate_refs.
  rewrite <- (validated_fields_ids ts ts' H),
          <- (validated_fields_refs (ids_of ts) ts ts' H),
          <- (validated_fields_graph ts ts' H).
  destruct (for_each ts (check_task_refs (ids_of ts))) as [[] | m]; simpl;
    [| reflexivity].
  destruct (is_directed_acyclic_graph (build_graph ts)); [| reflexivity].
  destruct ts as [| t ts0], ts' as [| t' ts0']; try discriminate; reflexivity.
Qed.

Lemma validator_run_is_ok wf :
  validator_run wf = Ok tt <->
  is_ok (new_JobWorkflowSchema (workflow_name wf) (tasks wf)) = true.
Proof.
  unfold validator_run.
  destruct (new_JobWorkflowSchema (workflow_name wf) (tasks wf)); simpl;
    split; congruence.
Qed.

(** ** Extraction and orchestration never fail *)

Definition fallback_name (error : option str) : str :=
  lit "Fallback Workflow" ++
  match error with
  | Some e => lit " (fallback: " ++ e ++ lit ")"
  | None => []
  end.

Lemma fallback_constructs transcript error :
  _fallback transcript error
  = Ok {| workflow_name := fallback_name error;
          tasks := fallback_task_list transcript |}.
Proof.
  unfold _fallback. fold (fallback_task_list transcript). fold (fallback_name error).
  destruct (fallback_task_list_linear transcript) as [Hchain _].
  apply new_JobWorkflowSchema_ok. split; [reflexivity |].
  destruct (chain_refs _ Hchain) as (Hd & Hs & _).
  repeat split; auto using chain_acyclic.
  apply has_root_nonempty. now apply chain_has_root.
Qed.

Lemma constructed_passes_validator name ts wf :
  new_JobWorkflowSchema name ts = Ok wf -> validator_run wf = Ok tt.
Proof.
  intros H. apply validator_run_ok.
  pose proof H as H'. apply new_JobWorkflowSchema_ok in H' as (-> & _). exact H.
Qed.

Lemma extractor_run_passes transcript response :
  exists wf, extractor_run transcript response = Ok wf /\ validator_run wf = Ok tt.
Proof.
  unfold extractor_run. destruct response as [[name ts] | exc].
  - simpl. destruct (new_JobWorkflowSchema name ts) as [wf | m] eqn:Hnew.
    + exists wf. split; [reflexivity |]. eapply constructed_passes_validator; eauto.
    + rewrite fallback_constructs. eexists. split; [reflexivity |].
      eapply constructed_passes_validator. apply fallback_constructs.
  - rewrite fallback_constructs. eexists. split; [reflexivity |].
    eapply constructed_passes_validator. apply fallback_constructs.
Qed.



(** An enricher that changes the workflow in place and then raises, and one
    that returns [None]. *)
Example enricher_edge_cases :
  process_transcript
    (Some (fun w => {| argument_after := argument_after (looping_enricher w);
                       call_end := EnrichRaises |}))
    (lit "Ann: do it") (Ok (lit "WF", [task_A]))
  = Ok ({| workflow_name := lit "WF"; tasks := [add_self_loop task_A] |},
        render {| workflow_name := lit "WF"; tasks := [add_self_loop task_A] |}) /\
  process_transcript
    (Some (fun w => {| argument_after := w;
                       call_end := ReturnsObject (NoWorkflow (lit "NoneType")) |}))
    (lit "Ann: do it") (Ok (lit "WF", [task_A]))
  = Raise (lit "'NoneType' object has no attribute 'tasks'").
Proof. split; vm_compute; reflexivity. Qed.

(** ** integrations/master_job_tree.py: MasterJobTreeEnricher.enrich *)

Section MasterJobTree.

(** The entries [_recommend_apis] and [_recommend_knowledge] return for a
    description, each by the two fields [enrich] reads: the name and the
    endpoint of an API, the id and the description of a knowledge
    reference.  They come from fuzzy matching against the catalogues. *)
Variable _recommend_apis : str -> list (str * str).
Variable _recommend_knowledge : str -> list (str * str).

(** One turn of the loop of [enrich]: the task with its annotations extended. *)
Definition enrich_task (task : TaskObject) : TaskObject :=
  let recommendations := _recommend_apis (task_description task) in
  let knowledge := _recommend_knowledge (task_description task) in
  {| task_id := task_id task;
     task_description := task_description task;
     role_owner := role_owner task;
     precedes_tasks := precedes_tasks task;
     dependencies := dependencies task;
     conditional_logic := conditional_logic task;
     required_knowledge :=
       match knowledge with
       | [] => required_knowledge task
       | _ :: _ =>
           required_knowledge task ++
           map (fun ref => {| k_id := fst ref; k_description := snd ref |}) knowledge
       end;
     required_skill_tags :=
       match recommendations with
       | [] => required_skill_tags task
       | _ :: _ =>
           required_skill_tags task ++
           map (fun item => {| s_id := fst item; s_description := snd item |})
               recommendations
       end |}.

(** [enrich]: every task is updated in place and the workflow is returned;
    this is the workflow object after the call. *)
Definition enrich (workflow : JobWorkflowSchema) : JobWorkflowSchema :=
  {| workflow_name := workflow_name workflow;
     tasks := map enrich_task (tasks workflow) |}.

Lemma enrich_validated_fields workflow :
  map validated_fields (tasks workflow)
  = map validated_fields (tasks (enrich workflow)).
Proof.
  unfold enrich. simpl. rewrite map_map. apply map_ext. reflexivity.
Qed.

Lemma enrich_rendered_fields workflow :
  map rendered_fields (tasks (enrich workflow))
  = map rendered_fields (tasks workflow).
Proof.
  unfold enrich. simpl. rewrite map_map. apply map_ext. reflexivity.
Qed.

Lemma enrich_keeps_annotations task :
  (exists more, required_knowledge (enrich_task task) = required_knowledge task ++ more) /\
  (exists more, required_skill_tags (enrich_task task) = required_skill_tags task ++ more).
Proof.
  unfold enrich_task. simpl. split.
  - destruct (_recommend_knowledge (task_description task)).
    + exists []. now rewrite app_nil_r.
    + eexists. reflexivity.
  - destruct (_recommend_apis (task_description task)).
    + exists []. now rewrite app_nil_r.
    + eexists. reflexivity.
Qed.

(** X7: enrichment by the Master Job Tree only appends annotations: ids,
    successors, dependencies and conditionals of every task stay as they
    were, a workflow that passes validation still passes it afterwards, and
    its diagram does not change.  So with this enricher the workflow that
    [process_transcript] passes on has always passed validation. *)
Theorem master_job_tree_enrich_safe :
  forall workflow : JobWorkflowSchema,
    map validated_fields (tasks (enrich workflow))
    = map validated_fields (tasks workflow) /\
    (forall t, In t (tasks workflow) ->
       exists k s,
         required_knowledge (enrich_task t) = required_knowledge t ++ k /\
         required_skill_tags (enrich_task t) = required_skill_tags t ++ s) /\
    render (enrich workflow) = render workflow /\
    (validator_run workflow = Ok tt -> validator_run (enrich workflow) = Ok tt) /\
    (forall transcript response,
       exists wf mermaid,
         process_transcript
           (Some (fun w => {| argument_after := enrich w;
                              call_end := ReturnsArgument |}))
           transcript response
         = Ok (wf, mermaid) /\
         validator_run wf = Ok tt).
Proof.
  intros workflow.
  assert (Hval : forall w, validator_run w = Ok tt -> validator_run (enrich w) = Ok tt).
  { intros w Hw. apply validator_run_is_ok. apply validator_run_is_ok in Hw.
    rewrite <- Hw. apply validated_fields_new. apply enrich_validated_fields. }
  split; [symmetry; apply enrich_validated_fields |].
  split.
  { intros t _. destruct (enrich_keeps_annotations t) as ((k & Hk) & (s & Hs)).
    exists k, s. split; assumption. }
  split.
  { unfold render, render_lines, style_lines.
    destruct (render_lines_fields _ _ (enrich_rendered_fields workflow))
      as (-> & -> & ->). reflexivity. }
  split; [apply Hval |].
  intros transcript response.
  destruct (extractor_run_passes transcript response) as (wf & Hrun & Hwf).
  exists (enrich wf), (render (enrich wf)). split.
  - unfold process_transcript. rewrite Hrun. simpl. rewrite Hwf.
    unfold enrich_step. simpl. destruct (validator_run (enrich wf)); reflexivity.
  - now apply Hval.
Qed.

End MasterJobTree.

(** ** More on [Mermaid._sanitize] *)

Lemma cleaned_fixed text :
  ~ In nl text -> ~ In dquote text -> cleaned text = text.
Proof.
  unfold cleaned, replace. rewrite map_map.
  induction text as [| c text IH]; simpl; intros Hnl Hdq; [reflexivity |].
  rewrite IH by tauto. f_equal.
  destruct (N.eqb_spec c nl) as [-> | _]; [tauto |].
  destruct (N.eqb_spec c dquote) as [-> | _]; [tauto | reflexivity].
Qed.

Lemma sanitize_cleaned text max_len :
  cleaned (_sanitize text max_len) = _sanitize text max_len.
Proof.
  destruct (sanitize_clean text max_len) as [Hnl Hdq]. now apply cleaned_fixed.
Qed.

Lemma sanitize_unfold_cleaned text max_len :
  _sanitize text max_len =
  if (Z.of_nat (length text) >? max_len)%Z
  then slice_to (cleaned text) (max_len - 1) ++ lit "..."
  else cleaned text.
Proof.
  unfold _sanitize. fold (cleaned text). now rewrite cleaned_length.
Qed.

(** X8: for a limit of at least one, sanitizing a sanitized text changes
    nothing. *)
Theorem sanitize_idempotent :
  forall (text : str) (max_len : Z),
    (1 <= max_len)%Z ->
    _sanitize (_sanitize text max_len) max_len = _sanitize text max_len.
Proof.
  intros text max_len Hmax.
  destruct (Z_le_gt_dec (Z.of_nat (length text)) max_len) as [Hshort | Hlong].
  - rewrite (sanitize_short text max_len Hshort).
    rewrite sanitize_short by (rewrite cleaned_length; exact Hshort).
    apply cleaned_fixed; [apply cleaned_no_newline | apply cleaned_no_dquote].
  - destruct (sanitize_long text max_len) as [Heq Hlen]; [lia |].
    destruct (sanitize_long (_sanitize text max_len) max_len) as [Heq' _]; [lia |].
    rewrite Heq', sanitize_cleaned. rewrite Heq at 1.
    rewrite firstn_app, firstn_firstn, Nat.min_id.
    rewrite length_firstn, cleaned_length.
    replace (Z.to_nat (max_len - 1) - Nat.min (Z.to_nat (max_len - 1)) (length text))
      with 0 by lia.
    simpl. rewrite app_nil_r. symmetry. exact Heq.
Qed.

Lemma sanitize_idempotent_witness :
  _sanitize (_sanitize (repeat 97%N 200) 60) 60 = _sanitize (repeat 97%N 200) 60.
Proof.
  apply (sanitize_idempotent (repeat 97%N 200) 60). lia.
Defined.

(** X9: for a limit of at least one, a sanitized text has at most two characters
    more than the limit and at most one more than the text; it holds no
    newline and no double quote; and a text within the limit keeps its
    length. *)
Theorem sanitize_bounds :
  forall (text : str) (max_len : Z),
    (1 <= max_len)%Z ->
    (Z.of_nat (length (_sanitize text max_len)) <= max_len + 2)%Z /\
    length (_sanitize text max_len) <= length text + 1 /\
    ~ In nl (_sanitize text max_len) /\
    ~ In dquote (_sanitize text max_len) /\
    ((Z.of_nat (length text) <= max_len)%Z ->
     length (_sanitize text max_len) = length text).
Proof.
  intros text max_len Hmax.
  destruct (sanitize_clean text max_len) as [Hnl Hdq].
  destruct (Z_le_gt_dec (Z.of_nat (length text)) max_len) as [Hshort | Hlong].
  - rewrite (sanitize_short text max_len Hshort), cleaned_length.
    rewrite (sanitize_short text max_len Hshort) in Hnl, Hdq.
    repeat split; auto; lia.
  - destruct (sanitize_long text max_len) as [_ Hlen]; [lia |].
    repeat split; auto; lia.
Qed.

Lemma sanitize_bounds_witness :
  length (_sanitize (lit "a" ++ [nl] ++ lit "b") 120) = 3.
Proof.
  destruct (sanitize_bounds (lit "a" ++ [nl] ++ lit "b") 120) as (_ & _ & _ & _ & H).
  - lia.
  - apply H. simpl. lia.
Defined.

(** ** More on [Mermaid.render] *)

Definition class_line (n : str) : str := lit "    class " ++ n ++ lit " decisionNode;".
Definition class_def : str :=
  lit "    classDef decisionNode fill:#ffe4b5,stroke:#333;".

Lemma node_line_rendered wf t :
  In t (tasks wf) -> In (node_line t) (render_lines wf).
Proof.
  intros Ht. unfold render_lines. apply in_or_app. right.
  apply in_or_app. left. now apply in_map.
Qed.

Lemma edge_line_rendered wf t line :
  In t (tasks wf) -> In line (edge_lines t) -> In line (render_lines wf).
Proof.
  intros Ht Hl. unfold render_lines. apply in_or_app. right.
  apply in_or_app. right. apply in_or_app. left. apply in_flat_map. eauto.
Qed.

(** X10: in the diagram of a workflow that constructs, every edge written for a
    [precedes] entry joins two declared nodes: the source and the target both
    have their node declaration among the lines. *)
Theorem plain_edges_join_declared_nodes :
  forall (name : str) (ts : list TaskObject) (wf : JobWorkflowSchema),
    new_JobWorkflowSchema name ts = Ok wf ->
    forall t nxt,
      In t (tasks wf) -> In nxt (precedes_tasks t) ->
      In (plain_edge (task_id t) nxt) (render_lines wf) /\
      In (node_line t) (render_lines wf) /\
      exists t', In t' (tasks wf) /\ task_id t' = nxt /\
                 In (node_line t') (render_lines wf).
Proof.
  intros name ts wf Hnew t nxt Ht Hn.
  apply new_JobWorkflowSchema_ok in Hnew as (-> & _ & Hs & _). cbn [tasks] in Ht.
  split; [| split].
  - apply (edge_line_rendered _ t); [exact Ht |].
    unfold edge_lines. apply in_or_app. left. now apply in_map.
  - now apply node_line_rendered.
  - specialize (Hs t nxt Ht Hn). unfold ids_of in Hs.
    apply in_map_iff in Hs as (t' & Hid & Ht').
    exists t'. split; [exact Ht' |]. split; [exact Hid |].
    now apply node_line_rendered.
Qed.

Lemma plain_edges_join_declared_nodes_witness :
  In (plain_edge (lit "T1") (lit "T2"))
     (render_lines {| workflow_name := lit "W";
                      tasks := two_tasks (lit "a") (lit "r") (lit "b") (lit "r") |}).
Proof.
  apply (plain_edges_join_declared_nodes (lit "W")
           (two_tasks (lit "a") (lit "r") (lit "b") (lit "r")) _ eq_refl
           (mk_task (lit "T1") (lit "a") (lit "r") [lit "T2"] [] None) (lit "T2")).
  - simpl. left. reflexivity.
  - simpl. left. reflexivity.
Defined.

Lemma filter_none {A} (f : A -> bool) (l : list A) :
  (forall x, In x l -> f x = false) -> filter f l = [].
Proof.
  induction l as [| x l IH]; simpl; intros H; [reflexivity |].
  rewrite (H x (or_introl eq_refl)). apply IH. intros y Hy. apply H. now right.
Qed.

(** X11: the style block: every task with a conditional is marked as a decision
    node, by the [classDef] line and a [class] line of its own; a workflow
    without conditionals has no style block, and no labelled edge either: its
    lines are the header, the node declarations and the plain edges. *)
Theorem decision_nodes_styled :
  forall wf : JobWorkflowSchema,
    (forall t c, In t (tasks wf) -> conditional_logic t = Some c ->
       In class_def (render_lines wf) /\
       In (class_line (task_id t)) (render_lines wf) /\
       In (labelled_edge (task_id t) (_sanitize (condition c) 60)
             (true_path_task_id c)) (render_lines wf)) /\
    ((forall t, In t (tasks wf) -> conditional_logic t = None) ->
     render_lines wf =
       lit "graph TD" :: map node_line (tasks wf) ++
       flat_map (fun t => map (plain_edge (task_id t)) (precedes_tasks t)) (tasks wf)).
Proof.
  intros wf. split.
  - intros t c Ht Hc.
    assert (Hdec : In (task_id t) (map task_id (filter is_decision (tasks wf)))).
    { apply in_map, filter_In. split; [exact Ht |].
      unfold is_decision. now rewrite Hc. }
    assert (Hstyle : In class_def (style_lines (tasks wf)) /\
                     In (class_line (task_id t)) (style_lines (tasks wf))).
    { unfold style_lines.
      destruct (map task_id (filter is_decision (tasks wf))) as [| d ds];
        [destruct Hdec |].
      split; [now left | right].
      apply (in_map (fun n => lit "    class " ++ n ++ lit " decisionNode;")) in Hdec.
      exact Hdec. }
    destruct Hstyle as [Hdef Hclass].
    split; [| split].
    + unfold render_lines. rewrite !in_app_iff. tauto.
    + unfold render_lines. rewrite !in_app_iff. tauto.
    + apply (edge_line_rendered _ t); [exact Ht |].
      unfold edge_lines. rewrite Hc. apply in_or_app. right. now left.
  - intros Hnone. unfold render_lines, style_lines.
    rewrite (filter_none is_decision (tasks wf)).
    + simpl. rewrite app_nil_r. do 2 f_equal.
      induction (tasks wf) as [| t ts IH]; simpl; [reflexivity |].
      rewrite IH by (intros u Hu; apply Hnone; now right).
      unfold edge_lines. rewrite (Hnone t (or_introl eq_refl)).
      now rewrite app_nil_r.
    + intros t Ht. unfold is_decision. now rewrite (Hnone t Ht).
Qed.

(** ** extractor_agent.py: recovery of a JSON block *)

Definition lbrace : char := 123%N.
Definition rbrace : char := 125%N.

Definition msg_non_json : str :=
  lit "ExtractorAgent received non-JSON output from LLM".

(** The suffix of [s] that starts at the first occurrence of [c]. *)
Fixpoint from_first (c : char) (s : str) : option str :=
  match s with
  | [] => None
  | x :: rest => if N.eqb x c then Some s else from_first c rest
  end.

(** The prefix of [s] that ends at the last occurrence of [c]. *)
Definition to_last (c : char) (s : str) : option str :=
  match from_first c (rev s) with
  | Some r => Some (rev r)
  | None => None
  end.

(** [ExtractorAgent._extract_json_block]: [re.search] with the pattern
    [\{.*\}] and [DOTALL].  The match starts at the first opening brace that
    has a closing brace after it, and the star, being greedy, carries it to
    the last closing brace of the text. *)
Definition _extract_json_block (text : str) : result str :=
  match from_first lbrace text with
  | Some (open :: rest) =>
      match to_last rbrace rest with
      | Some body => Ok (open :: body)
      | None => Raise msg_non_json
      end
  | _ => Raise msg_non_json
  end.

Example extract_json_block_example :
  _extract_json_block (lit "Sure! {a: {b}} and } more") = Ok (lit "{a: {b}} and }") /\
  _extract_json_block (lit "} no block {") = Raise msg_non_json.
Proof. vm_compute. split; reflexivity. Qed.

Lemma from_first_spec c s :
  match from_first c s with
  | Some r => exists pre rest, s = pre ++ r /\ r = c :: rest /\ ~ In c pre
  | None => ~ In c s
  end.
Proof.
  induction s as [| x s IH]; simpl; [tauto |].
  destruct (N.eqb_spec x c) as [-> | Hne].
  - exists [], s. repeat split. tauto.
  - destruct (from_first c s) as [r |].
    + destruct IH as (pre & rest & -> & -> & Hpre).
      exists (x :: pre), rest. repeat split. simpl. intros [H | H]; auto.
    + simpl. intros [H | H]; auto.
Qed.

Lemma to_last_spec c s :
  match to_last c s with
  | Some r => exists body post, s = r ++ post /\ r = body ++ [c] /\ ~ In c post
  | None => ~ In c s
  end.
Proof.
  unfold to_last. pose proof (from_first_spec c (rev s)) as H.
  destruct (from_first c (rev s)) as [r |].
  - destruct H as (pre & rest & Hs & -> & Hpre).
    exists (rev rest), (rev pre). split; [| split].
    + rewrite <- (rev_involutive s), Hs, rev_app_distr. reflexivity.
    + reflexivity.
    + now rewrite <- in_rev.
  - now rewrite in_rev.
Qed.

Lemma from_first_head c rest : from_first c (c :: rest) = Some (c :: rest).
Proof. cbn [from_first]. now rewrite N.eqb_refl. Qed.

Lemma to_last_end c body : to_last c (body ++ [c]) = Some (body ++ [c]).
Proof.
  unfold to_last. rewrite rev_app_distr. cbn [rev app].
  rewrite from_first_head. cbn [rev]. now rewrite rev_involutive.
Qed.

Lemma after_first_occurrence (c d : char) pre r :
  forall pre' mid post',
    ~ In c pre ->
    pre ++ c :: r = pre' ++ [c] ++ mid ++ [d] ++ post' ->
    In d r.
Proof.
  induction pre as [| p pre IH]; intros pre' mid post' Hpre Heq.
  - destruct pre' as [| p' pre'']; simpl in Heq; injection Heq as Heq.
    + rewrite Heq. apply in_or_app. right. now left.
    + subst p'. rewrite H. apply in_or_app. right. right.
      apply in_or_app. right. now left.
  - destruct pre' as [| p' pre'']; simpl in Heq; injection Heq as Hp Heq.
    + exfalso. apply Hpre. now left.
    + apply (IH pre'' mid post'); [| exact Heq].
      intros Hin. apply Hpre. now right.
Qed.

(** X12: the block recovered from the answer of the model is the text from its
    first opening brace to its last closing brace: nothing before the block
    holds an opening brace, nothing after it a closing one, and recovering
    from the block again returns the block.  The search fails, with the same
    exception each time, exactly when no opening brace is followed by a
    closing one. *)
Theorem extract_json_block_spec :
  forall text : str,
    match _extract_json_block text with
    | Ok block =>
        exists pre body post,
          text = pre ++ block ++ post /\
          block = [lbrace] ++ body ++ [rbrace] /\
          ~ In lbrace pre /\ ~ In rbrace post /\
          _extract_json_block block = Ok block
    | Raise m =>
        m = msg_non_json /\
        forall pre mid post, text <> pre ++ [lbrace] ++ mid ++ [rbrace] ++ post
    end.
Proof.
  intros text. unfold _extract_json_block.
  pose proof (from_first_spec lbrace text) as Hopen.
  destruct (from_first lbrace text) as [[| o rest] |].
  - destruct Hopen as (pre & r & _ & H & _). discriminate.
  - destruct Hopen as (pre & r & Htext & Hr & Hpre). injection Hr as -> ->.
    pose proof (to_last_spec rbrace r) as Hclose.
    destruct (to_last rbrace r) as [body' |].
    + destruct Hclose as (body & post & Hr & -> & Hpost).
      exists pre, body, post. repeat split; auto.
      * rewrite Htext, Hr. simpl. now rewrite <- !app_assoc.
      * cbn [app]. rewrite from_first_head. now rewrite to_last_end.
    + split; [reflexivity |]. intros pre' mid post' Heq.
      rewrite Htext in Heq.
      assert (Hin : In rbrace r).
      { apply (after_first_occurrence lbrace rbrace pre r pre' mid post' Hpre Heq). }
      contradiction.
  - split; [reflexivity |]. intros pre mid post ->.
    apply Hopen. apply in_or_app. right. now left.
Qed.

(** ** More on the fallback *)

Lemma or_else_nonempty a b : b <> [] -> or_else a b <> [].
Proof.
  intros Hb. destruct a; simpl; [exact Hb | discriminate].
Qed.

Lemma role_and_description_nonempty line :
  line <> [] ->
  fst (role_and_description line) <> [] /\ snd (role_and_description line) <> [].
Proof.
  intros Hline. unfold role_and_description.
  destruct (char_in colon line); simpl.
  - split; apply or_else_nonempty; discriminate.
  - split; [discriminate | exact Hline].
Qed.

Lemma fallback_lines_nonempty transcript line :
  In line (fallback_lines transcript) -> line <> [].
Proof.
  unfold fallback_lines. intros H. apply filter_In in H as [_ H].
  destruct line; [discriminate | discriminate].
Qed.

Lemma split_colon_spec line :
  char_in colon line = true ->
  line = fst (split_colon line) ++ [colon] ++ snd (split_colon line) /\
  ~ In colon (fst (split_colon line)).
Proof.
  unfold char_in.
  induction line as [| c line IH]; cbn [existsb split_colon]; [discriminate |].
  rewrite (N.eqb_sym colon c). destruct (N.eqb_spec c colon) as [-> | Hne];
    cbn [orb fst snd app].
  - intros _. split; [reflexivity | intros []].
  - intros H. destruct (IH H) as [Heq Hnot]. split.
    + cbn [app] in Heq |- *. f_equal. exact Heq.
    + intros [Hc | Hc]; [congruence | contradiction].
Qed.

Lemma nth_error_fallback_tasks_from n lines :
  forall start i,
    nth_error (map (fun il => fallback_task n (fst il) (snd il))
                 (combine (seq start (length lines)) lines)) i
    = option_map (fallback_task n (start + i)) (nth_error lines i).
Proof.
  induction lines as [| line lines IH]; intros start i; simpl.
  - destruct i; reflexivity.
  - destruct i as [| i]; simpl.
    + now rewrite Nat.add_0_r.
    + rewrite IH. now rewrite Nat.add_succ_r.
Qed.

Lemma nth_error_fallback_tasks lines i :
  nth_error (fallback_tasks lines) i
  = option_map (fallback_task (length lines) (i + 1)) (nth_error lines i).
Proof.
  unfold fallback_tasks. rewrite nth_error_fallback_tasks_from.
  now rewrite (Nat.add_comm 1 i).
Qed.

(** X13: the task at each position of the fallback comes from the non-blank
    line at that position: it has the id T followed by the position counted
    from one, no dependency, no conditional and no annotation; for a line
    without a colon the role is "Unknown" and the description is the line;
    for a line with a colon the role is what stands before the first colon,
    stripped, or "Unknown" when that is empty, and the description is what
    stands after it, stripped, or "Task description unavailable".  A
    transcript without non-blank lines gives the single default task.  Role
    and description are never empty. *)
Theorem fallback_task_fields :
  forall (transcript : str) (i : nat) (t : TaskObject),
    nth_error (fallback_task_list transcript) i = Some t ->
    role_owner t <> [] /\ task_description t <> [] /\
    dependencies t = [] /\ conditional_logic t = None /\
    required_knowledge t = [] /\ required_skill_tags t = [] /\
    task_id t = T (i + 1) /\
    match nth_error (fallback_lines transcript) i with
    | Some line =>
        if char_in colon line then
          exists speaker content,
            line = speaker ++ [colon] ++ content /\ ~ In colon speaker /\
            role_owner t = or_else (strip speaker) (lit "Unknown") /\
            task_description t
            = or_else (strip content) (lit "Task description unavailable")
        else role_owner t = lit "Unknown" /\ task_description t = line
    | None =>
        fallback_lines transcript = [] /\ i = 0 /\
        role_owner t = lit "Unknown" /\
        task_description t = lit "No actionable steps detected"
    end.
Proof.
  intros transcript i t Ht. unfold fallback_task_list in Ht.
  destruct (fallback_tasks (fallback_lines transcript)) as [| t0 ts0] eqn:Hts.
  - assert (Hlines : fallback_lines transcript = []).
    { apply (f_equal (@length _)) in Hts. rewrite fallback_tasks_length in Hts.
      now destruct (fallback_lines transcript). }
    rewrite Hlines. destruct i as [| i]; simpl in Ht.
    + injection Ht as <-. simpl. repeat split; discriminate.
    + destruct i; discriminate.
  - rewrite <- Hts, nth_error_fallback_tasks in Ht.
    destruct (nth_error (fallback_lines transcript) i) as [line |] eqn:Hline;
      simpl in Ht; [| discriminate].
    injection Ht as <-.
    assert (Hne : line <> []).
    { apply (fallback_lines_nonempty transcript). eapply nth_error_In; eauto. }
    destruct (role_and_description_nonempty line Hne) as [Hrole Hdesc].
    simpl. repeat split; auto.
    unfold role_and_description.
    destruct (char_in colon line) eqn:Hcolon; simpl; [| split; reflexivity].
    destruct (split_colon_spec line Hcolon) as [Heq Hnot].
    exists (fst (split_colon line)), (snd (split_colon line)).
    repeat split; auto.
Qed.

Lemma fallback_task_fields_witness :
  role_owner (mk_task (lit "T2") (lit "close it") (lit "Unknown") [] [] None)
  = lit "Unknown" /\
  task_description (mk_task (lit "T2") (lit "close it") (lit "Unknown") [] [] None)
  = lit "close it".
Proof.
  destruct (fallback_task_fields
              (lit "Ann: open the ticket" ++ [10]%N ++ lit "close it") 1
              (mk_task (lit "T2") (lit "close it") (lit "Unknown") [] [] None)
              eq_refl) as (_ & _ & _ & _ & _ & _ & _ & H).
  exact H.
Defined.

(** ** An empty false target *)

(** The task with the false target of its conditional, if it is the empty
    string, removed. *)
Definition drop_empty_false_target (t : TaskObject) : TaskObject :=
  match conditional_logic t with
  | Some c =>
      match false_path_task_id c with
      | Some [] =>
          {| task_id := task_id t; task_description := task_description t;
             role_owner := role_owner t; precedes_tasks := precedes_tasks t;
             dependencies := dependencies t;
             conditional_logic :=
               Some {| condition := condition c;
                       true_path_task_id := true_path_task_id c;
                       false_path_task_id := None |};
             required_knowledge := required_knowledge t;
             required_skill_tags := required_skill_tags t |}
      | _ => t
      end
  | None => t
  end.

Lemma drop_empty_false_target_same t :
  validated_fields (drop_empty_false_target t) = validated_fields t /\
  node_line (drop_empty_false_target t) = node_line t /\
  edge_lines (drop_empty_false_target t) = edge_lines t /\
  is_decision (drop_empty_false_target t) = is_decision t /\
  task_id (drop_empty_false_target t) = task_id t.
Proof.
  unfold drop_empty_false_target.
  destruct (conditional_logic t) as [c |] eqn:Hc; [| repeat split].
  destruct (false_path_task_id c) as [[| x f] |] eqn:Hf; try (repeat split).
  - unfold validated_fields, task_targets. simpl. now rewrite Hc, Hf.
  - unfold edge_lines. simpl. now rewrite Hc, Hf.
  - unfold is_decision. simpl. now rewrite Hc.
Qed.

(** X14: a false target that is the empty string counts as absent, for the
    validators and for the renderer alike: with it or without it a task list
    has the same outcome of construction and the same diagram. *)
Theorem empty_false_target_ignored :
  forall (name : str) (ts : list TaskObject),
    is_ok (new_JobWorkflowSchema name (map drop_empty_false_target ts))
    = is_ok (new_JobWorkflowSchema name ts) /\
    render {| workflow_name := name; tasks := map drop_empty_false_target ts |}
    = render {| workflow_name := name; tasks := ts |}.
Proof.
  intros name ts. split.
  - apply validated_fields_new. rewrite map_map. apply map_ext.
    intros t. symmetry. apply drop_empty_false_target_same.
  - unfold render, render_lines, style_lines. simpl.
    assert (H : map node_line (map drop_empty_false_target ts) = map node_line ts /\
                flat_map edge_lines (map drop_empty_false_target ts)
                = flat_map edge_lines ts /\
                map task_id (filter is_decision (map drop_empty_false_target ts))
                = map task_id (filter is_decision ts)).
    { induction ts as [| t ts (IH1 & IH2 & IH3)]; simpl; [repeat split |].
      destruct (drop_empty_false_target_same t) as (_ & Hn & He & Hd & Hi).
      rewrite Hn, He, Hd, IH1, IH2. repeat split.
      destruct (is_decision t); simpl; congruence. }
    destruct H as (-> & -> & ->). reflexivity.
Qed.

(** ** Conditional targets are not checked *)

Definition set_conditional (t : TaskObject) (c : option ConditionalLogic)
  : TaskObject :=
  {| task_id := task_id t; task_description := task_description t;
     role_owner := role_owner t; precedes_tasks := precedes_tasks t;
     dependencies := dependencies t; conditional_logic := c;
     required_knowledge := required_knowledge t;
     required_skill_tags := required_skill_tags t |}.

(** The targets of a conditional, as [_validate_dag] adds them. *)
Definition branch_targets (c : ConditionalLogic) : list str :=
  true_path_task_id c ::
  match truthy (false_path_task_id c) with
  | Some f => [f]
  | None => []
  end.

Lemma edge_source_is_task ts u v :
  In (u, v) (workflow_edges ts) -> In u (ids_of ts).
Proof.
  intros H. apply workflow_edges_In in H as (t & Ht & -> & _).
  unfold ids_of. now apply in_map.
Qed.

Lemma walk_first_edge E u v : walk E u v -> exists w, In (u, w) E.
Proof.
  intros [a b H | a w b H _]; eauto.
Qed.

(** Edges into nodes that are no task cannot lie on a walk that goes on. *)
Lemma walk_without_sinks E E' (ids : list str) :
  (forall u v, In (u, v) E' -> In u ids) ->
  (forall u v, In (u, v) E' -> In (u, v) E \/ ~ In v ids) ->
  forall u v, walk E' u v -> (exists w, In (v, w) E') -> walk E u v.
Proof.
  intros Hsrc Hnew u v Hw. induction Hw as [u v H | u w v H Hwv IH]; intros Hout.
  - destruct (Hnew u v H) as [Hold | Hsink]; [now apply walk_edge |].
    destruct Hout as (x & Hx). exfalso. apply Hsink. eapply Hsrc; eauto.
  - specialize (IH Hout).
    destruct (Hnew u w H) as [Hold | Hsink]; [eapply walk_step; eauto |].
    destruct (walk_first_edge E' w v Hwv) as (x & Hx).
    exfalso. apply Hsink. eapply Hsrc; eauto.
Qed.

Lemma workflow_edges_set_conditional pre t post c u v :
  conditional_logic t = None ->
  In (u, v) (workflow_edges (pre ++ set_conditional t (Some c) :: post)) ->
  In (u, v) (workflow_edges (pre ++ t :: post)) \/ In v (branch_targets c).
Proof.
  intros Hnone H. apply workflow_edges_In in H as (t' & Ht' & -> & Hv).
  apply in_app_or in Ht' as [Ht' | [<- | Ht']].
  - left. apply workflow_edges_In. exists t'. repeat split; auto.
    apply in_or_app. now left.
  - unfold task_targets in Hv. simpl in Hv. apply in_app_or in Hv as [Hv | Hv].
    + left. apply workflow_edges_In. exists t. repeat split.
      * apply in_or_app. right. now left.
      * unfold task_targets. apply in_or_app. now left.
    + right. exact Hv.
  - left. apply workflow_edges_In. exists t'. repeat split; auto.
    apply in_or_app. right. now right.
Qed.

Lemma ids_of_set_conditional pre t post c :
  ids_of (pre ++ set_conditional t c :: post) = ids_of (pre ++ t :: post).
Proof.
  unfold ids_of. now rewrite !map_app.
Qed.

(** X15: a conditional whose targets name no task does not stop construction:
    giving such a conditional to a task, without one so far, of a task list
    that constructs yields a task list that constructs. *)
Theorem dangling_branch_accepted :
  forall (name : str) (pre post : list TaskObject) (t : TaskObject)
         (c : ConditionalLogic),
    conditional_logic t = None ->
    new_JobWorkflowSchema name (pre ++ t :: post)
    = Ok {| workflow_name := name; tasks := pre ++ t :: post |} ->
    (forall z, In z (branch_targets c) -> ~ In z (ids_of (pre ++ t :: post))) ->
    new_JobWorkflowSchema name (pre ++ set_conditional t (Some c) :: post)
    = Ok {| workflow_name := name;
            tasks := pre ++ set_conditional t (Some c) :: post |}.
Proof.
  intros name pre post t c Hnone Hnew Hfresh.
  apply new_JobWorkflowSchema_ok in Hnew as (_ & Hd & Hs & Hac & _).
  apply new_JobWorkflowSchema_ok. split; [reflexivity |].
  assert (Hin : forall t', In t' (pre ++ set_conditional t (Some c) :: post) ->
            exists t0, In t0 (pre ++ t :: post) /\
                       dependencies t' = dependencies t0 /\
                       precedes_tasks t' = precedes_tasks t0).
  { intros t' Ht'. apply in_app_or in Ht' as [Ht' | [<- | Ht']].
    - exists t'. repeat split. apply in_or_app. now left.
    - exists t. repeat split. apply in_or_app. right. now left.
    - exists t'. repeat split. apply in_or_app. right. now right. }
  split; [| split; [| split]].
  - intros t' d Ht' Hdep. rewrite ids_of_set_conditional.
    destruct (Hin t' Ht') as (t0 & Ht0 & Heq & _). rewrite Heq in Hdep. eauto.
  - intros t' n Ht' Hn. rewrite ids_of_set_conditional.
    destruct (Hin t' Ht') as (t0 & Ht0 & _ & Heq). rewrite Heq in Hn. eauto.
  - intros v Hv. apply (Hac v).
    apply (walk_without_sinks _ _ (ids_of (pre ++ t :: post))
             (fun u w H => eq_ind _ (fun l => In u l)
                (edge_source_is_task _ u w H) _ (ids_of_set_conditional pre t post (Some c)))
             (fun u w H =>
                match workflow_edges_set_conditional pre t post c u w Hnone H with
                | or_introl Hold => or_introl Hold
                | or_intror Hz => or_intror (Hfresh w Hz)
                end) v v Hv).
    now apply (walk_first_edge _ v v).
  - destruct pre; discriminate.
Qed.

Lemma dangling_branch_accepted_witness :
  new_JobWorkflowSchema (lit "W")
    ([] ++ set_conditional task_A
             (Some {| condition := lit "ok?"; true_path_task_id := lit "Z1";
                      false_path_task_id := Some (lit "Z2") |}) :: [])
  = Ok {| workflow_name := lit "W";
          tasks := [] ++ set_conditional task_A
             (Some {| condition := lit "ok?"; true_path_task_id := lit "Z1";
                      false_path_task_id := Some (lit "Z2") |}) :: [] |}.
Proof.
  apply (dangling_branch_accepted (lit "W") [] [] task_A).
  - reflexivity.
  - vm_compute. reflexivity.
  - intros z [<- | [<- | []]] [H | []]; vm_compute in H; discriminate.
Defined.

(** ** integrations: scoring tasks against a registry

    [SkillNodeMatcher._score_task] and [AutomationMatrixRecommender._score_task]
    are the same function over two kinds of entries, and so are [match] and
    [recommend]. *)

From Stdlib Require Import Sorted.

(** [l[:k]] for a list, with Python's reading of a negative bound. *)
Definition slice_upto {A} (l : list A) (k : Z) : list A :=
  if (0 <=? k)%Z then firstn (Z.to_nat k) l
  else firstn (Z.to_nat (Z.of_nat (length l) + k)) l.

Section Scoring.

(** Scores: the values [fuzz.token_set_ratio] returns, with their order. *)
Variable Score : Type.
Variable leb : Score -> Score -> bool.
Hypothesis leb_total : forall a b, leb a b = true \/ leb b a = true.
Hypothesis leb_trans :
  forall a b c, leb a b = true -> leb b c = true -> leb a c = true.

Variable token_set_ratio : str -> str -> Score.

(** The entries of the registry and the text they are searched by. *)
Variable Entry : Type.
Variable searchable_text : Entry -> str.
Variable registry : list Entry.

Variable min_score : Score.
Variable top_k : Z.

(** [list.sort(key=lambda item: item[0], reverse=True)]: by descending score,
    entries of equal score staying in the order they had. *)
Fixpoint insert_desc (x : Score * Entry) (l : list (Score * Entry))
  : list (Score * Entry) :=
  match l with
  | [] => [x]
  | y :: rest =>
      if leb (fst x) (fst y) then y :: insert_desc x rest else x :: l
  end.

Definition sort_desc (l : list (Score * Entry)) : list (Score * Entry) :=
  fold_left (fun acc x => insert_desc x acc) l [].

Definition _score_task (description : str) : list (Score * Entry) :=
  let scored :=
    filter (fun se => leb min_score (fst se))
      (map (fun e => (token_set_ratio description (searchable_text e), e))
           registry) in
  slice_upto (sort_desc scored) top_k.

(** [match] and [recommend]: one link per task and candidate, built by
    [link] from the task id, the score and the entry. *)
Definition links {L : Type} (link : str -> Score -> Entry -> L)
  (workflow : JobWorkflowSchema) : list L :=
  flat_map
    (fun task =>
       map (fun se => link (task_id task) (fst se) (snd se))
           (_score_task (task_description task)))
    (tasks workflow).

Definition descending (a b : Score * Entry) : Prop := leb (fst b) (fst a) = true.

Lemma insert_desc_In x l y : In y (insert_desc x l) <-> y = x \/ In y l.
Proof.
  induction l as [| z l IH]; simpl.
  - intuition.
  - destruct (leb (fst x) (fst z)); simpl; rewrite ?IH; intuition.
Qed.

Lemma insert_desc_length x l : length (insert_desc x l) = S (length l).
Proof.
  induction l as [| z l IH]; simpl; [reflexivity |].
  destruct (leb (fst x) (fst z)); simpl; [now rewrite IH | reflexivity].
Qed.

Lemma insert_desc_sorted x l :
  StronglySorted descending l -> StronglySorted descending (insert_desc x l).
Proof.
  induction 1 as [| z l Hs IH Hz]; simpl.
  - repeat constructor.
  - destruct (leb (fst x) (fst z)) eqn:Hxz.
    + constructor; [exact IH |].
      apply Forall_forall. intros y Hy. apply insert_desc_In in Hy as [-> | Hy].
      * exact Hxz.
      * rewrite Forall_forall in Hz. now apply Hz.
    + assert (Hzx : leb (fst z) (fst x) = true).
      { destruct (leb_total (fst x) (fst z)); congruence. }
      constructor; [now constructor |].
      constructor; [exact Hzx |].
      rewrite Forall_forall in Hz. apply Forall_forall. intros y Hy.
      unfold descending. eapply leb_trans; [apply (Hz y Hy) | exact Hzx].
Qed.

Lemma sort_desc_spec l :
  StronglySorted descending (sort_desc l) /\
  (forall y, In y (sort_desc l) <-> In y l) /\
  length (sort_desc l) = length l.
Proof.
  unfold sort_desc.
  assert (H : forall acc,
    StronglySorted descending acc ->
    StronglySorted descending (fold_left (fun acc x => insert_desc x acc) l acc) /\
    (forall y, In y (fold_left (fun acc x => insert_desc x acc) l acc)
               <-> In y acc \/ In y l) /\
    length (fold_left (fun acc x => insert_desc x acc) l acc)
    = length acc + length l).
  { induction l as [| x l IH]; intros acc Hacc; simpl.
    - split; [exact Hacc |]. split; [intuition | lia].
    - destruct (IH (insert_desc x acc) (insert_desc_sorted x acc Hacc))
        as (Hs & Hin & Hlen).
      split; [exact Hs |]. split.
      + intros y. rewrite Hin, insert_desc_In. intuition.
      + rewrite Hlen, insert_desc_length. lia. }
  destruct (H [] (SSorted_nil _)) as (Hs & Hin & Hlen).
  split; [exact Hs |]. split; [| exact Hlen].
  intros y. rewrite Hin. simpl. tauto.
Qed.

Lemma firstn_sorted {A} (R : A -> A -> Prop) n :
  forall l, StronglySorted R l -> StronglySorted R (firstn n l).
Proof.
  induction n as [| n IH]; intros l Hl; [constructor |].
  destruct Hl as [| x l Hs Hx]; simpl; [constructor |].
  constructor; [now apply IH |].
  rewrite Forall_forall in *. intros y Hy. apply Hx.
  now apply In_firstn in Hy.
Qed.

Lemma slice_upto_spec {A} (l : list A) k :
  exists n, slice_upto l k = firstn n l /\ ((0 <= k)%Z -> n = Z.to_nat k).
Proof.
  unfold slice_upto. destruct (Z.leb_spec 0 k).
  - eexists. split; [reflexivity | reflexivity].
  - eexists. split; [reflexivity | lia].
Qed.

(** X16: the candidates of a task: sorted by descending score, each the score of
    an entry of the registry and at least the minimum, and, for a
    non-negative [top_k], at most [top_k] of them; when the registry has no
    more than [top_k] entries, every entry that reaches the minimum is a
    candidate. *)
Theorem score_task_spec :
  forall description : str,
    StronglySorted descending (_score_task description) /\
    (forall s e, In (s, e) (_score_task description) ->
       leb min_score s = true /\ In e registry /\
       s = token_set_ratio description (searchable_text e)) /\
    ((0 <= top_k)%Z ->
     (Z.of_nat (length (_score_task description)) <= top_k)%Z) /\
    ((Z.of_nat (length registry) <= top_k)%Z ->
     forall e, In e registry ->
       leb min_score (token_set_ratio description (searchable_text e)) = true ->
       In (token_set_ratio description (searchable_text e), e)
          (_score_task description)).
Proof.
  intros description. unfold _score_task.
  set (scored := filter (fun se => leb min_score (fst se))
                   (map (fun e => (token_set_ratio description (searchable_text e), e))
                        registry)).
  destruct (sort_desc_spec scored) as (Hsorted & Hin & Hlen).
  destruct (slice_upto_spec (sort_desc scored) top_k) as (n & Hslice & Hn).
  rewrite Hslice. split; [now apply firstn_sorted |]. split; [| split].
  - intros s e Hse. apply In_firstn, Hin in Hse.
    apply filter_In in Hse as [Hmap Hmin]. apply in_map_iff in Hmap as (e' & [= <- <-] & He).
    auto.
  - intros Hk. pose proof (firstn_le_length n (sort_desc scored)). rewrite (Hn Hk) in *. lia.
  - intros Hbig e He Hmin.
    assert (Hall : firstn n (sort_desc scored) = sort_desc scored).
    { apply firstn_all2. rewrite Hlen.
      assert (length scored <= length registry).
      { unfold scored. etransitivity; [apply filter_length_le |].
        now rewrite length_map. }
      assert (0 <= top_k)%Z by lia. rewrite (Hn H0). lia. }
    rewrite Hall. apply Hin. apply filter_In. split; [| exact Hmin].
    apply in_map_iff. eauto.
Qed.

(** X17: the links of a workflow: each carries the id of a task of the workflow
    and a candidate of that task's description; for a non-negative [top_k]
    there are at most [top_k] links per task. *)
Theorem links_spec :
  forall (L : Type) (link : str -> Score -> Entry -> L)
         (workflow : JobWorkflowSchema),
    (forall l, In l (links link workflow) ->
       exists task s e,
         In task (tasks workflow) /\ l = link (task_id task) s e /\
         In e registry /\ leb min_score s = true /\
         s = token_set_ratio (task_description task) (searchable_text e)) /\
    ((0 <= top_k)%Z ->
     (Z.of_nat (length (links link workflow))
      <= top_k * Z.of_nat (length (tasks workflow)))%Z).
Proof.
  intros L link workflow. unfold links. split.
  - intros l Hl. apply in_flat_map in Hl as (task & Htask & Hl).
    apply in_map_iff in Hl as ([s e] & <- & Hse).
    unfold _score_task in Hse.
    destruct (slice_upto_spec
                (sort_desc (filter (fun se => leb min_score (fst se))
                   (map (fun e => (token_set_ratio (task_description task)
                                     (searchable_text e), e)) registry))) top_k)
      as (n & Hslice & _).
    rewrite Hslice in Hse. apply In_firstn in Hse.
    apply (proj1 (proj1 (proj2 (sort_desc_spec _)) _)) in Hse.
    apply filter_In in Hse as [Hmap Hmin].
    apply in_map_iff in Hmap as (e' & [= <- <-] & He).
    exists task, (token_set_ratio (task_description task) (searchable_text e')), e'.
    auto.
  - intros Hk. induction (tasks workflow) as [| task ts IH]; simpl; [lia |].
    rewrite length_app, length_map.
    assert (Hone : (Z.of_nat (length (_score_task (task_description task))) <= top_k)%Z).
    { unfold _score_task.
      destruct (slice_upto_spec
                  (sort_desc (filter (fun se => leb min_score (fst se))
                     (map (fun e => (token_set_ratio (task_description task)
                                       (searchable_text e), e)) registry))) top_k)
        as (n & Hslice & Hn).
      rewrite Hslice.
      pose proof (firstn_le_length n
        (sort_desc (filter (fun se => leb min_score (fst se))
           (map (fun e => (token_set_ratio (task_description task)
                             (searchable_text e), e)) registry)))).
      rewrite (Hn Hk) in *. lia. }
    lia.
Qed.

End Scoring.

(** *** skill_node_matcher.py *)

Record SkillNode := {
  sk_skill_id : str;
  sk_display_name : str;
  sk_namespace : str;
  sk_tags : str;
  sk_source : str
}.

(** [SkillNode.searchable_text]. *)
Definition skill_searchable_text (sk : SkillNode) : str :=
  sk_display_name sk ++ lit " " ++ sk_tags sk ++ lit " " ++ sk_namespace sk.

(** One entry of the list [match] returns; [Conf] is the type of the
    confidence. *)
Record SkillLink (Conf : Type) := {
  sl_task_id : str;
  sl_skill_id : str;
  sl_skill_name : str;
  sl_namespace : str;
  sl_confidence : Conf;
  sl_source : str
}.

Arguments sl_task_id {Conf} _.
Arguments sl_skill_id {Conf} _.
Arguments sl_confidence {Conf} _.

(** [SkillNodeMatcher.match]; [confidence] is [round(score / 100.0, 3)]. *)
Definition SkillNodeMatcher_match {Score Conf : Type}
  (leb : Score -> Score -> bool) (token_set_ratio : str -> str -> Score)
  (confidence : Score -> Conf)
  (_skills : list SkillNode) (min_score : Score) (top_k : Z)
  (workflow : JobWorkflowSchema) : list (SkillLink Conf) :=
  links Score leb token_set_ratio SkillNode skill_searchable_text _skills
    min_score top_k
    (fun tid score skill =>
       {| sl_task_id := tid;
          sl_skill_id := sk_skill_id skill;
          sl_skill_name := sk_display_name skill;
          sl_namespace := sk_namespace skill;
          sl_confidence := confidence score;
          sl_source := sk_source skill |})
    workflow.

(** *** automation_matrix.py *)

Record MatrixWorkflow := {
  mw_workflow_id : str;
  mw_name : str;
  mw_department : str;
  mw_role : str;
  mw_actions : str;
  mw_platform : str;
  mw_source_link : str;
  mw_kpis : str;
  mw_notes : str
}.

(** [MatrixWorkflow.searchable_text]: the non-empty fields, joined by
    spaces. *)
Definition matrix_searchable_text (wf : MatrixWorkflow) : str :=
  join (lit " ")
    (filter nonempty
       [mw_name wf; mw_actions wf; mw_department wf; mw_role wf;
        mw_notes wf; mw_kpis wf]).

Record MatrixSuggestion (Conf : Type) := {
  ms_task_id : str;
  ms_matrix_workflow_id : str;
  ms_name : str;
  ms_platform : str;
  ms_actions : str;
  ms_department : str;
  ms_role : str;
  ms_kpis : str;
  ms_source_link : str;
  ms_confidence : Conf
}.

Arguments ms_task_id {Conf} _.

(** [AutomationMatrixRecommender.recommend]. *)
Definition AutomationMatrixRecommender_recommend {Score Conf : Type}
  (leb : Score -> Score -> bool) (token_set_ratio : str -> str -> Score)
  (confidence : Score -> Conf)
  (matrix : list MatrixWorkflow) (min_score : Score) (top_k : Z)
  (workflow : JobWorkflowSchema) : list (MatrixSuggestion Conf) :=
  links Score leb token_set_ratio MatrixWorkflow matrix_searchable_text matrix
    min_score top_k
    (fun tid score wf =>
       {| ms_task_id := tid;
          ms_matrix_workflow_id := mw_workflow_id wf;
          ms_name := mw_name wf;
          ms_platform := mw_platform wf;
          ms_actions := mw_actions wf;
          ms_department := mw_department wf;
          ms_role := mw_role wf;
          ms_kpis := mw_kpis wf;
          ms_source_link := mw_source_link wf;
          ms_confidence := confidence score |})
    workflow.

(** A registry of three skills and a scorer, for trying the matcher: the
    score is the length of the searched text. *)
Definition demo_skills : list SkillNode :=
  [ {| sk_skill_id := lit "ops.deploy"; sk_display_name := lit "deploy";
       sk_namespace := lit "ops"; sk_tags := lit "ci"; sk_source := lit "a.json" |};
    {| sk_skill_id := lit "ops.rollback"; sk_display_name := lit "rollback release";
       sk_namespace := lit "ops"; sk_tags := lit "ci cd"; sk_source := lit "a.json" |};
    {| sk_skill_id := lit "qa"; sk_display_name := lit "t";
       sk_namespace := lit "general"; sk_tags := []; sk_source := lit "b.json" |} ].

Definition demo_ratio (description text : str) : Z := Z.of_nat (length text).

Lemma Zleb_total (a b : Z) : (a <=? b)%Z = true \/ (b <=? a)%Z = true.
Proof.
  destruct (Z.leb_spec a b); [now left | right]. apply Z.leb_le. lia.
Defined.

Lemma Zleb_trans (a b c : Z) :
  (a <=? b)%Z = true -> (b <=? c)%Z = true -> (a <=? c)%Z = true.
Proof.
  rewrite !Z.leb_le. lia.
Defined.

Example skill_match_example :
  map (fun l => (sl_task_id l, sl_skill_id l, sl_confidence l))
    (SkillNodeMatcher_match Z.leb demo_ratio (fun s => s) demo_skills 12%Z 3%Z
       {| workflow_name := lit "W";
          tasks := two_tasks (lit "a") (lit "r") (lit "b") (lit "r") |})
  = [ (lit "T1", lit "ops.rollback", 26%Z); (lit "T1", lit "ops.deploy", 13%Z);
      (lit "T2", lit "ops.rollback", 26%Z); (lit "T2", lit "ops.deploy", 13%Z) ].
Proof. vm_compute. reflexivity. Qed.

Lemma score_task_spec_witness :
  (Z.of_nat (length (_score_task Z Z.leb demo_ratio SkillNode skill_searchable_text
                       demo_skills 12%Z 1%Z (lit "deploy it"))) <= 1)%Z.
Proof.
  destruct (score_task_spec Z Z.leb Zleb_total Zleb_trans demo_ratio SkillNode
              skill_searchable_text demo_skills 12%Z 1%Z (lit "deploy it"))
    as (_ & _ & H & _).
  apply H. lia.
Defined.

Lemma links_spec_witness :
  (Z.of_nat (length (SkillNodeMatcher_match Z.leb demo_ratio (fun s => s)
                       demo_skills 12%Z 1%Z
                       {| workflow_name := lit "W";
                          tasks := two_tasks (lit "a") (lit "r") (lit "b") (lit "r") |}))
   <= 1 * 2)%Z.
Proof.
  destruct (links_spec Z Z.leb Zleb_total Zleb_trans demo_ratio SkillNode
              skill_searchable_text demo_skills 12%Z 1%Z (SkillLink Z)
              (fun tid score skill =>
                 {| sl_task_id := tid;
                    sl_skill_id := sk_skill_id skill;
                    sl_skill_name := sk_display_name skill;
                    sl_namespace := sk_namespace skill;
                    sl_confidence := score;
                    sl_source := sk_source skill |})
              {| workflow_name := lit "W";
                 tasks := two_tasks (lit "a") (lit "r") (lit "b") (lit "r") |})
    as (_ & H).
  apply H. lia.
Defined.

(** ** integrations/autogen_bridge.py: the predicted file name *)

(** [s.split()]: the maximal runs of characters that are not whitespace;
    [cur] holds the run being read, last character first. *)
Fixpoint split_ws_from (cur s : str) : list str :=
  match s with
  | [] => match cur with [] => [] | _ :: _ => [rev cur] end
  | c :: rest =>
      if is_space c then
        match cur with
        | [] => split_ws_from [] rest
        | _ :: _ => rev cur :: split_ws_from [] rest
        end
      else split_ws_from (c :: cur) rest
  end.

Definition split_ws (s : str) : list str := split_ws_from [] s.

Section AutogenBridge.

(** [str.lower] and [str.isalnum], which follow the Unicode tables. *)
Variable lower : str -> str.
Variable isalnum : str -> bool.

(** [_predict_filename]. *)
Definition _predict_filename (description : str) : str :=
  let tokens := split_ws (lower description) in
  let sanitized :=
    concat (map (fun token => if isalnum token then token else lit "_") tokens) in
  let sanitized := firstn 50 sanitized in
  lit "workflow_" ++ sanitized ++ lit ".py".

Lemma split_ws_from_no_space cur s token :
  (forall c, In c cur -> is_space c = false) ->
  In token (split_ws_from cur s) ->
  token <> [] /\ forall c, In c token -> is_space c = false.
Proof.
  revert cur. induction s as [| x s IH]; intros cur Hcur Hin; simpl in Hin.
  - destruct cur as [| y cur']; [destruct Hin |].
    destruct Hin as [<- | []]. split.
    + intros Hnil. apply (f_equal (@length _)) in Hnil.
      rewrite length_rev in Hnil. discriminate.
    + intros c Hc. apply in_rev in Hc. now apply Hcur.
  - destruct (is_space x) eqn:Hx.
    + destruct cur as [| y cur'].
      * now apply (IH []).
      * destruct Hin as [<- | Hin].
        -- split.
           ++ intros Hnil. apply (f_equal (@length _)) in Hnil.
              rewrite length_rev in Hnil. discriminate.
           ++ intros c Hc. apply in_rev in Hc. now apply Hcur.
        -- apply (IH []); [intros c [] | exact Hin].
    + apply (IH (x :: cur)); [| exact Hin].
      intros c [<- | Hc]; [exact Hx | now apply Hcur].
Qed.

(** X18: the predicted file name is "workflow_", at most fifty characters, and
    ".py": between 12 and 62 characters in all, and no whitespace anywhere in
    it. *)
Theorem predict_filename_shape :
  forall description : str,
    (exists stem,
        _predict_filename description = lit "workflow_" ++ stem ++ lit ".py" /\
        length stem <= 50) /\
    12 <= length (_predict_filename description) <= 62 /\
    (forall c, In c (_predict_filename description) -> is_space c = false).
Proof.
  intros description. unfold _predict_filename.
  set (sanitized := concat (map (fun token => if isalnum token then token else lit "_")
                              (split_ws (lower description)))).
  split; [| split].
  - exists (firstn 50 sanitized). split; [reflexivity | apply firstn_le_length].
  - rewrite !length_app. pose proof (firstn_le_length 50 sanitized).
    change (length (lit "workflow_")) with 9. change (length (lit ".py")) with 3. lia.
  - intros c Hc. apply in_app_or in Hc as [Hc | Hc].
    { simpl in Hc. repeat (destruct Hc as [<- | Hc]; [reflexivity |]). destruct Hc. }
    apply in_app_or in Hc as [Hc | Hc].
    + apply In_firstn in Hc. unfold sanitized in Hc.
      apply in_concat in Hc as (piece & Hpiece & Hc).
      apply in_map_iff in Hpiece as (token & <- & Htoken).
      destruct (isalnum token).
      * apply (split_ws_from_no_space [] (lower description) token); auto.
        intros x [].
      * simpl in Hc. destruct Hc as [<- | []]. reflexivity.
    + simpl in Hc. repeat (destruct Hc as [<- | Hc]; [reflexivity |]). destruct Hc.
Qed.

End AutogenBridge.

Example split_ws_example :
  split_ws (lit "  design an   automation" ++ [10]%N ++ lit "now ")
  = [lit "design"; lit "an"; lit "automation"; lit "now"].
Proof. vm_compute. reflexivity. Qed.

(** ** cli/extract.py: InMemoryRepository, and Orchestrator._persist_workflow *)

(** A Python [dict] with string keys: the items in insertion order, one per
    key. *)
Fixpoint dict_get {V} (d : list (str * V)) (k : str) : option V :=
  match d with
  | [] => None
  | (k', v) :: rest => if str_eqb k k' then Some v else dict_get rest k
  end.

(** [d[k] = v]. *)
Fixpoint dict_set {V} (d : list (str * V)) (k : str) (v : V) : list (str * V) :=
  match d with
  | [] => [(k, v)]
  | (k', v') :: rest =>
      if str_eqb k k' then (k', v) :: rest else (k', v') :: dict_set rest k v
  end.

Section Persistence.

(** The entries of [skill_links] and [automation_links]. *)
Variable SkillLinks AutomationLinks : Type.

(** The keyword arguments of [record_workflow]. *)
Record RecordArgs := {
  workflow_id : str;
  workflow : JobWorkflowSchema;
  transcript : str;
  mermaid : str;
  autogen_script_path : option str;
  skill_links : option (list SkillLinks);
  automation_links : option (list AutomationLinks)
}.

(** One value of [InMemoryRepository._storage]. *)
Record Stored := {
  st_workflow_id : str;
  st_workflow : JobWorkflowSchema;
  st_transcript : str;
  st_mermaid : str;
  st_autogen_script_path : option str;
  st_skill_links : list SkillLinks;
  st_automation_links : list AutomationLinks
}.

Definition or_empty {A} (o : option (list A)) : list A :=
  match o with
  | Some (x :: l) => x :: l
  | _ => []
  end.

Definition stored_of (args : RecordArgs) : Stored :=
  {| st_workflow_id := workflow_id args;
     st_workflow := workflow args;
     st_transcript := transcript args;
     st_mermaid := mermaid args;
     st_autogen_script_path := autogen_script_path args;
     st_skill_links := or_empty (skill_links args);
     st_automation_links := or_empty (automation_links args) |}.

(** [InMemoryRepository.record_workflow]: the storage afterwards and the
    identifier returned. *)
Definition record_workflow (_storage : list (str * Stored)) (args : RecordArgs)
  : list (str * Stored) * nat :=
  let identifier := length _storage + 1 in
  (dict_set _storage (str_of_nat identifier) (stored_of args), identifier).

(** [Orchestrator._persist_workflow] for a repository with state [S], whose
    [record_workflow] returns the new state and an identifier, or raises. *)
Definition _persist_workflow {S : Type}
  (repo : option (S -> RecordArgs -> result (S * nat)))
  (state : S) (args : RecordArgs) : S * str :=
  match repo with
  | None => (state, lit "workflow_unpersisted")
  | Some record =>
      match record state args with
      | Ok (state', _) => (state', workflow_id args)
      | Raise _ => (state, lit "workflow_persist_error")
      end
  end.

(** The storage after [n] calls: the keys are "1", ..., "n". *)
Definition storage_ok (_storage : list (str * Stored)) : Prop :=
  map fst _storage = map str_of_nat (seq 1 (length _storage)).

Lemma str_of_nat_inj i j : str_of_nat i = str_of_nat j -> i = j.
Proof.
  unfold str_of_nat. intros H.
  now apply DecimalNat.Unsigned.to_uint_inj, str_of_uint_inj.
Qed.

Lemma dict_set_fresh {V} (d : list (str * V)) k v :
  ~ In k (map fst d) -> dict_set d k v = d ++ [(k, v)].
Proof.
  induction d as [| [k' v'] d IH]; simpl; intros Hk; [reflexivity |].
  destruct (str_eqb k k') eqn:E.
  - apply str_eqb_eq in E. subst. tauto.
  - rewrite IH; tauto.
Qed.

Lemma dict_get_app_fresh {V} (d : list (str * V)) k v k0 :
  ~ In k (map fst d) ->
  dict_get (d ++ [(k, v)]) k0
  = if str_eqb k0 k then Some v else dict_get d k0.
Proof.
  intros Hk. induction d as [| [k' v'] d IH]; simpl.
  - reflexivity.
  - simpl in Hk. destruct (str_eqb k0 k') eqn:E.
    + apply str_eqb_eq in E. subst k'.
      destruct (str_eqb k0 k) eqn:E'; [| reflexivity].
      apply str_eqb_eq in E'. subst. tauto.
    + apply IH. tauto.
Qed.

Lemma dict_get_In {V} (d : list (str * V)) k v :
  dict_get d k = Some v -> In k (map fst d).
Proof.
  induction d as [| [k' v'] d IH]; simpl; [discriminate |].
  destruct (str_eqb k k') eqn:E.
  - intros _. left. apply str_eqb_eq in E. now symmetry.
  - intros H. right. now apply IH.
Qed.

Lemma storage_key_fresh _storage :
  storage_ok _storage ->
  ~ In (str_of_nat (length _storage + 1)) (map fst _storage).
Proof.
  unfold storage_ok. intros -> Hin.
  apply in_map_iff in Hin as (i & Hi & Hseq).
  apply str_of_nat_inj in Hi. apply in_seq in Hseq. lia.
Qed.

(** X19: recording in the in-memory repository: the identifiers handed out are
    1, 2, 3, ...; the new record can be read back under its identifier, every
    record stored before is still there under its key, and the storage keeps
    its shape. *)
Theorem record_workflow_spec :
  forall (_storage : list (str * Stored)) (args : RecordArgs),
    storage_ok _storage ->
    let after := fst (record_workflow _storage args) in
    let identifier := snd (record_workflow _storage args) in
    identifier = length _storage + 1 /\
    length after = length _storage + 1 /\
    storage_ok after /\
    dict_get after (str_of_nat identifier) = Some (stored_of args) /\
    (forall k v, dict_get _storage k = Some v -> dict_get after k = Some v).
Proof.
  intros _storage args Hok. unfold record_workflow. cbn [fst snd].
  pose proof (storage_key_fresh _storage Hok) as Hfresh.
  rewrite (dict_set_fresh _ _ _ Hfresh).
  split; [reflexivity |]. split; [rewrite length_app; simpl; lia |].
  split; [| split].
  - unfold storage_ok in *. rewrite length_app, map_app, seq_app, map_app, <- Hok.
    cbn [length map fst seq].
    replace (1 + length _storage) with (length _storage + 1) by lia. reflexivity.
  - rewrite (dict_get_app_fresh _ _ _ _ Hfresh). now rewrite str_eqb_refl.
  - intros k v Hk. rewrite (dict_get_app_fresh _ _ _ _ Hfresh).
    destruct (str_eqb k (str_of_nat (length _storage + 1))) eqn:E; [| exact Hk].
    apply str_eqb_eq in E. subst k. exfalso. apply Hfresh.
    now apply (dict_get_In _ _ v).
Qed.

End Persistence.

Definition demo_args : RecordArgs unit unit :=
  {| workflow_id := lit "wf-0a1b";
     workflow := {| workflow_name := lit "W"; tasks := [task_A] |};
     transcript := lit "Ann: do it";
     mermaid := render {| workflow_name := lit "W"; tasks := [task_A] |};
     autogen_script_path := None;
     skill_links := None;
     automation_links := Some [] |}.

Lemma record_workflow_spec_witness :
  dict_get (fst (record_workflow unit unit [] demo_args)) (lit "1")
  = Some (stored_of unit unit demo_args).
Proof.
  destruct (record_workflow_spec unit unit [] demo_args eq_refl)
    as (_ & _ & _ & H & _).
  exact H.
Defined.

(** X20: [_persist_workflow] with the in-memory repository: the record is stored
    under the next numeral, the earlier records stay, and what is returned to
    the caller is the workflow id it passed in, not the identifier of the
    repository. *)
Theorem persist_in_memory :
  forall (SkillLinks AutomationLinks : Type)
         (_storage : list (str * Stored SkillLinks AutomationLinks))
         (args : RecordArgs SkillLinks AutomationLinks),
    storage_ok SkillLinks AutomationLinks _storage ->
    exists after,
      _persist_workflow SkillLinks AutomationLinks
        (Some (fun st a => Ok (record_workflow SkillLinks AutomationLinks st a)))
        _storage args
      = (after, workflow_id SkillLinks AutomationLinks args) /\
      storage_ok SkillLinks AutomationLinks after /\
      length after = length _storage + 1 /\
      dict_get after (str_of_nat (length _storage + 1))
      = Some (stored_of SkillLinks AutomationLinks args) /\
      (forall k v, dict_get _storage k = Some v -> dict_get after k = Some v).
Proof.
  intros SL AL _storage args Hok.
  exists (dict_set _storage (str_of_nat (length _storage + 1)) (stored_of SL AL args)).
  pose proof (storage_key_fresh SL AL _storage Hok) as Hfresh.
  split; [reflexivity |].
  rewrite (dict_set_fresh _ _ _ Hfresh).
  split; [| split; [| split]].
  - unfold storage_ok in *. rewrite length_app, map_app, seq_app, map_app, <- Hok.
    cbn [length map fst seq].
    replace (1 + length _storage) with (length _storage + 1) by lia. reflexivity.
  - rewrite length_app. simpl. lia.
  - rewrite (dict_get_app_fresh _ _ _ _ Hfresh). now rewrite str_eqb_refl.
  - intros k v Hk. rewrite (dict_get_app_fresh _ _ _ _ Hfresh).
    destruct (str_eqb k (str_of_nat (length _storage + 1))) eqn:E; [| exact Hk].
    apply str_eqb_eq in E. subst k. exfalso. apply Hfresh.
    now apply (dict_get_In _ _ v).
Qed.

Lemma persist_in_memory_witness :
  snd (_persist_workflow unit unit
         (Some (fun st a => Ok (record_workflow unit unit st a))) [] demo_args)
  = lit "wf-0a1b".
Proof.
  destruct (persist_in_memory unit unit [] demo_args eq_refl) as (after & H & _).
  rewrite H. reflexivity.
Defined.
